(** * Profile automation scripts: a shallow embedding and its properties

    Three stand-alone scripts are modelled, one module each:

    - [Updater]  (scripts/generate-quokka.js): the state-board updater;
    - [Renderer] (scripts/render-quokka-gif.mjs): the scene simulation;
    - [Syncer]   (the README post-list script).

    Conventions shared by the three models.

    - JavaScript numbers that the scripts keep integral (counters, pixel
      coordinates of the board, millisecond time stamps) are [Z]; numbers
      that are fractional (random draws, positions and velocities of the
      scene) are exact rationals [Q].  Rounding of binary floating point
      is not modelled.
    - [Math.random()] is a call with an effect.  It is modelled by a
      sequence [rng] of draws and a read position that every call
      advances.  The contract of [Math.random] (a result in the half-open
      unit interval) is carried by the type [draw].
    - Strings are sequences of bytes (UTF-8); every pattern the scripts
      search for is ASCII, so byte positions and UTF-16 positions select
      the same text. *)

From Stdlib Require Import ZArith QArith Qround Qminmax Lqa String Ascii List Lia.
From Stdlib Require Import DecimalString Sorted.
From stdpp Require Import base option gmap strings list fin_maps sorting.

Set Warnings "-register-all".

Open Scope Z_scope.

(** ** Random draws *)

Definition in_unit (q : Q) : bool := Qle_bool 0 q && negb (Qle_bool 1 q).

Record draw := Draw { dval : Q; dval_unit : in_unit dval = true }.

(** The successive results of [Math.random()]. *)
Definition rng := nat → draw.

(** [Math.floor(Math.random() * n)], for an integer [n]. *)
Definition floor_scaled (d : draw) (n : Z) : Z := Qfloor (dval d * inject_Z n).

(** ** Text helpers *)

Definition nl : string := String (ascii_of_nat 10) EmptyString.
Definition dq : string := String (ascii_of_nat 34) EmptyString.

(** An attribute value between double quotes. *)
Definition quoted (s : string) : string := dq +:+ s +:+ dq.

Fixpoint join (sep : string) (l : list string) : string :=
  match l with
  | [] => EmptyString
  | [s] => s
  | s :: rest => s +:+ sep +:+ join sep rest
  end.

(** Decimal rendering of an integer, as a template literal prints it. *)
Definition Z_to_string (z : Z) : string := NilZero.string_of_int (Z.to_int z).

(** [String.prototype.toLowerCase] on the ASCII letters; the only strings it
    is applied to are entries of [techStacks]. *)
Definition lower_ascii (c : ascii) : ascii :=
  let n := nat_of_ascii c in
  if (65 <=? n)%nat && (n <=? 90)%nat then ascii_of_nat (n + 32) else c.

Fixpoint toLowerCase (s : string) : string :=
  match s with
  | EmptyString => EmptyString
  | String c rest => String (lower_ascii c) (toLowerCase rest)
  end.

(** [s.replace(c, '')] with a one-character string pattern: only the first
    occurrence is removed. *)
Fixpoint remove_first (c : ascii) (s : string) : string :=
  match s with
  | EmptyString => EmptyString
  | String d rest => if Ascii.eqb c d then rest else String d (remove_first c rest)
  end.

Definition is_space (c : ascii) : bool :=
  let n := nat_of_ascii c in
  ((9 <=? n)%nat && (n <=? 13)%nat) || (n =? 32)%nat.

Fixpoint trim_start (s : string) : string :=
  match s with
  | EmptyString => EmptyString
  | String c rest => if is_space c then trim_start rest else s
  end.

Fixpoint rev_string (acc s : string) : string :=
  match s with
  | EmptyString => acc
  | String c rest => rev_string (String c acc) rest
  end.

(** [String.prototype.trim] for the ASCII white space characters. *)
Definition trim (s : string) : string :=
  rev_string EmptyString (trim_start (rev_string EmptyString (trim_start s))).

Fixpoint contains_char (c : ascii) (s : string) : bool :=
  match s with
  | EmptyString => false
  | String d rest => Ascii.eqb c d || contains_char c rest
  end.

(** * The state-board updater *)

Module Updater.

(** A counter of the state record as JavaScript holds it: an integer, or
    NaN once [undefined + 1] has been computed. *)
Inductive jsnum := JInt (z : Z) | JNaN.

Definition js_add (a b : jsnum) : jsnum :=
  match a, b with
  | JInt p, JInt q => JInt (p + q)
  | _, _ => JNaN
  end.

(** [obj[k] += 1]: a missing property reads as [undefined]. *)
Definition incr (v : option jsnum) : jsnum :=
  match v with
  | Some a => js_add a (JInt 1)
  | None => JNaN
  end.

(** [Math.floor(totalEaten / 5) + 1] *)
Definition level_of (totalEaten : jsnum) : jsnum :=
  match totalEaten with
  | JInt t => JInt (t / 5 + 1)
  | JNaN => JNaN
  end.

Record Position := { x : Z; y : Z }.

Record State := {
  quokka_level : jsnum;
  eaten_leaves : gmap string jsnum;
  current_target : option string;   (* [None]: the property is undefined *)
  position : Position
}.

Definition techStacks : list string := ["JS"; "TS"; "React"; "Next.js"; "AI"].

(** [arr[i]] for a number [i]: [undefined] out of range. *)
Definition index {A} (l : list A) (i : Z) : option A :=
  if i <? 0 then None else l !! Z.to_nat i.

(** A property key computed from a value: [undefined] names the property
    ["undefined"]. *)
Definition key_of (t : option string) : string := default "undefined" t.

(** [Object.values(o).reduce((a, b) => a + b, 0)] *)
Definition totalEaten (m : gmap string jsnum) : jsnum :=
  map_fold (λ _ b a, js_add a b) (JInt 0) m.

(** Step 3 of the script: the in-memory update of the record.  The draws
    are consumed in source order: target, x, y. *)
Definition update (st : State) (r : rng) : State :=
  let k := key_of (current_target st) in
  let eaten := <[k := incr (eaten_leaves st !! k)]> (eaten_leaves st) in
  {| quokka_level := level_of (totalEaten eaten);
     eaten_leaves := eaten;
     current_target :=
       index techStacks (floor_scaled (r 0%nat) (Z.of_nat (length techStacks)));
     position := {| x := floor_scaled (r 1%nat) 600 + 50;
                    y := floor_scaled (r 2%nat) 200 + 100 |} |}.

(** ** Files *)

(** The state file holds the record ([None]: the file is missing or is not
    JSON); the other files are text. *)
Record Store := { state_json : option State; files : gmap string string }.

Definition assetsDir : string := "assets".
Definition outputPath : string := "assets/quokka-board.svg".
Definition path_join (dir name : string) : string := dir +:+ "/" +:+ name.

(** [content.replace(/<svg[^>]*>|<\/svg>/g, '')].  Scanning left to right, a
    match starts where the text reads [<svg] with a [>] somewhere after it,
    or reads [</svg>]; either way it ends at the first [>] from there, so
    one flag (inside a matched tag) drives the scan. *)
Fixpoint strip_svg_tags (inside : bool) (s : string) : string :=
  match s with
  | EmptyString => EmptyString
  | String c rest =>
      if inside then strip_svg_tags (negb (Ascii.eqb c ">")) rest
      else if (String.prefix "<svg" s && contains_char ">" s)
              || String.prefix "</svg>" s
      then strip_svg_tags true rest
      else String c (strip_svg_tags false rest)
  end.

Definition getSvgContent (fs : gmap string string) (filename : string) : string :=
  match fs !! path_join assetsDir filename with
  | None => EmptyString
  | Some content => strip_svg_tags false content
  end.

Definition show_num (n : jsnum) : string :=
  match n with JInt z => Z_to_string z | JNaN => "NaN" end.

Definition show_prop (v : option jsnum) : string :=
  match v with Some n => show_num n | None => "undefined" end.

Definition leaf_emoji : string :=
  String (ascii_of_nat 240) (String (ascii_of_nat 159)
    (String (ascii_of_nat 141) (String (ascii_of_nat 131) EmptyString))).

(** The template literal [finalSvg], line by line. *)
Definition finalSvg (st : State) (target : string) (leafX leafY : Z)
    (targetLeafContent quokkaContent : string) : string :=
  let e k := show_prop (eaten_leaves st !! k) in
  join nl [
    EmptyString;
    "<svg width=" +:+ quoted "800" +:+ " height=" +:+ quoted "400"
      +:+ " viewBox=" +:+ quoted "0 0 800 400"
      +:+ " xmlns=" +:+ quoted "http://www.w3.org/2000/svg"
      +:+ " shape-rendering=" +:+ quoted "crispEdges" +:+ ">";
    "  <rect width=" +:+ quoted "100%" +:+ " height=" +:+ quoted "100%"
      +:+ " fill=" +:+ quoted "#FFF8D6" +:+ " rx=" +:+ quoted "15" +:+ " />";
    "  ";
    "  <text x=" +:+ quoted "30" +:+ " y=" +:+ quoted "40"
      +:+ " font-family=" +:+ quoted "monospace" +:+ " font-size=" +:+ quoted "20"
      +:+ " font-weight=" +:+ quoted "bold" +:+ " fill=" +:+ quoted "#333" +:+ ">";
    "    Lv." +:+ show_num (quokka_level st) +:+ " Quokka's Tech Stack";
    "  </text>";
    "  ";
    "  <text x=" +:+ quoted "30" +:+ " y=" +:+ quoted "70"
      +:+ " font-family=" +:+ quoted "monospace" +:+ " font-size=" +:+ quoted "16"
      +:+ " fill=" +:+ quoted "#555" +:+ ">";
    "    " +:+ leaf_emoji +:+ " JS: " +:+ e "JS" +:+ " | TS: " +:+ e "TS"
      +:+ " | React: " +:+ e "React" +:+ " | Next.js: " +:+ e "Next.js"
      +:+ " | AI: " +:+ e "AI";
    "  </text>";
    "  <text x=" +:+ quoted "30" +:+ " y=" +:+ quoted "95"
      +:+ " font-family=" +:+ quoted "monospace" +:+ " font-size=" +:+ quoted "14"
      +:+ " fill=" +:+ quoted "#888" +:+ ">";
    "    * Quokka is hunting for [" +:+ target +:+ "] today!";
    "  </text>";
    EmptyString;
    "  <g transform=" +:+ quoted ("translate(" +:+ Z_to_string leafX +:+ ", "
      +:+ Z_to_string leafY +:+ ") scale(1.5)") +:+ ">";
    "    " +:+ targetLeafContent;
    "  </g>";
    EmptyString;
    "  <g transform=" +:+ quoted ("translate(" +:+ Z_to_string (x (position st))
      +:+ ", " +:+ Z_to_string (y (position st)) +:+ ") scale(3)") +:+ ">";
    "    " +:+ quokkaContent;
    "  </g>";
    "</svg>";
    EmptyString
  ].

Inductive outcome := Done (s : Store) | Fatal (s : Store).

(** The whole script.  An exception ends the process with the files as
    they are at that point. *)
Definition run (s : Store) (r : rng) : outcome :=
  match state_json s with
  | None => Fatal s
  | Some st =>
      let st' := update st r in
      let leafX := floor_scaled (r 3%nat) 600 + 50 in
      let leafY := floor_scaled (r 4%nat) 200 + 150 in
      let s1 := {| state_json := Some st'; files := files s |} in
      let quokkaContent := getSvgContent (files s1) "quokka.svg" in
      match current_target st' with
      | None => Fatal s1                 (* [undefined.toLowerCase()] throws *)
      | Some t =>
          let leafFileName :=
            "leaf-" +:+ remove_first "." (toLowerCase t) +:+ ".svg" in
          let targetLeafContent := getSvgContent (files s1) leafFileName in
          let doc := trim (finalSvg st' t leafX leafY targetLeafContent quokkaContent) in
          Done {| state_json := Some st'; files := <[outputPath := doc]> (files s1) |}
      end
  end.

(** ** Vocabulary of the statements *)

(** The sum of the counts of a record whose counts are all integers. *)
Definition sum_counts (m : gmap string Z) : Z := map_fold (λ _ c acc, acc + c) 0 m.

(** The same record with another stored level. *)
Definition with_level (st : State) (lvl : jsnum) : State :=
  {| quokka_level := lvl; eaten_leaves := eaten_leaves st;
     current_target := current_target st; position := position st |}.

Definition store_of (o : outcome) : Store :=
  match o with Done s | Fatal s => s end.

(** The draws 3 and 4 of a run place the target sprite. *)
Definition leafX (r : rng) : Z := floor_scaled (r 3%nat) 600 + 50.
Definition leafY (r : rng) : Z := floor_scaled (r 4%nat) 200 + 150.

Definition leafFileName (target : string) : string :=
  "leaf-" +:+ remove_first "." (toLowerCase target) +:+ ".svg".

(** A record, a store without any fragment file and a sequence of draws. *)
Definition example_counts : gmap string Z :=
  list_to_map [("JS", 3); ("TS", 1); ("React", 0); ("Next.js", 0); ("AI", 0)].

Definition example_state : State :=
  {| quokka_level := JInt 1; eaten_leaves := JInt <$> example_counts;
     current_target := Some "JS"; position := {| x := 0; y := 0 |} |}.

Definition example_store : Store :=
  {| state_json := Some example_state; files := ∅ |}.

Definition example_rng : rng := λ _, Draw (1 # 2) eq_refl.

End Updater.

(** * The scene-to-GIF renderer: the simulation *)

Module Renderer.

(** Command-line parameters ([--w], [--h], [--fps], [--sec]).  The time
    computations divide by [FPS]; the rational model stands for the script
    when [FPS] is not zero (JavaScript computes with Infinity and NaN
    there). *)
Record Config := { WIDTH : Q; HEIGHT : Q; FPS : Q; DURATION_SEC : Q }.

Definition defaults : Config :=
  {| WIDTH := 720; HEIGHT := 200; FPS := 12; DURATION_SEC := 8 |}.

Definition FRAMES (c : Config) : Z := Z.max 1 (Qfloor (FPS c * DURATION_SEC c)).

(** The functions of the [Math] object that are not rational: they are
    taken as given. *)
Record Math := { cos : Q → Q; sin : Q → Q; pow : Q → Q → Q; PI : Q }.

Definition Qlt_bool (a b : Q) : bool := negb (Qle_bool b a).

Definition clamp (n a b : Q) : Q := Qmax a (Qmin b n).

Definition dist2 (ax ay bx by_ : Q) : Q :=
  let dx := (ax - bx)%Q in
  let dy := (ay - by_)%Q in
  (dx * dx + dy * dy)%Q.

Inductive LeafState := alive | eating | dead.

Definition LeafState_eqb (a b : LeafState) : bool :=
  match a, b with
  | alive, alive | eating, eating | dead, dead => true
  | _, _ => false
  end.

Module Leaf.
Record t := mk {
  id : nat;
  img : nat;            (* index of the image in [leafImgs] *)
  label : string;
  state : LeafState;
  eatStartMs : Z;
  eatDurationMs : Z;
  respawnAt : Z;
  x : Q;
  y : Q;
  r : Q
}.
End Leaf.

Module Quokka.
Record t := mk {
  x : Q; y : Q; vx : Q; vy : Q; dirX : Q; dirY : Q;
  nextDirAt : Z; speed : Q; r : Q
}.
End Quokka.

Module Popup.
Record t := mk { text : string; x : Q; y : Q; startMs : Z; durationMs : Z }.
End Popup.

Record Zone := { x1 : Q; x2 : Q; y1 : Q; y2 : Q }.

(** The keys of [ASSETS.leaves], in order. *)
Definition leaf_keys : list string := ["JS"; "REACT"; "TS"; "NEXT"; "AI"].

(** ** Computations that draw random numbers *)

Definition Rand (A : Type) : Type := nat → A * nat.

Definition ret {A} (a : A) : Rand A := λ p, (a, p).

Definition bind {A B} (c : Rand A) (k : A → Rand B) : Rand B :=
  λ p, let (a, p') := c p in k a p'.

Notation "'let!' x ':=' c 'in' k" := (bind c (λ x, k))
  (at level 10, x name, c at level 100, k at level 200).

(** A [for (const a of l)] loop whose body updates [a] and may draw. *)
Fixpoint for_each {A} (body : A → Rand A) (l : list A) : Rand (list A) :=
  match l with
  | [] => ret []
  | a :: rest =>
      let! a' := body a in
      let! rest' := for_each body rest in
      ret (a' :: rest')
  end.

(** [n] calls of [Math.random()] whose results are only painted. *)
Definition skip (n : nat) : Rand unit := λ p, (tt, (p + n)%nat).

Section Simulation.

Context (cfg : Config) (math : Math) (draws : rng).

Definition random : Rand Q := λ p, (dval (draws p), S p).

Definition rand (min max : Q) : Rand Q :=
  let! u := random in ret (min + u * (max - min))%Q.

Definition randInt (min max : Q) : Rand Z :=
  let! v := rand min (max + 1)%Q in ret (Qfloor v).

Definition createSpawnZones (groundY : Z) : list Zone :=
  let top := (inject_Z groundY + 14)%Q in
  let bottom := (HEIGHT cfg - 16)%Q in
  [ {| x1 := 40; x2 := 260; y1 := (top + 10)%Q; y2 := bottom |};
    {| x1 := 460; x2 := (WIDTH cfg - 40)%Q; y1 := (top + 10)%Q; y2 := bottom |};
    {| x1 := 60; x2 := 320; y1 := top; y2 := (top + 32)%Q |};
    {| x1 := 400; x2 := (WIDTH cfg - 60)%Q; y1 := top; y2 := (top + 32)%Q |} ].

(** [zones[i]].  The index comes from [randInt(0, zones.length - 1)], which
    is within the list: the zone standing for [undefined] is never read. *)
Definition zone_at (zones : list Zone) (i : Z) : Zone :=
  nth (Z.to_nat i) zones {| x1 := 0; x2 := 0; y1 := 0; y2 := 0 |}.

Definition pickSpawnPoint (zones : list Zone) : Rand (Q * Q) :=
  let! i := randInt 0 (inject_Z (Z.of_nat (length zones)) - 1)%Q in
  let z := zone_at zones i in
  let! px := rand (x1 z) (x2 z) in
  let! py := rand (y1 z) (y2 z) in
  ret (px, py).

Fixpoint createLeaves_from (i count : nat) (zones : list Zone) : Rand (list Leaf.t) :=
  match count with
  | O => ret []
  | S count' =>
      let! p := pickSpawnPoint zones in
      let! rest := createLeaves_from (S i) count' zones in
      ret ({| Leaf.id := i;
              Leaf.img := (i mod length leaf_keys)%nat;
              Leaf.label := nth (i mod length leaf_keys) leaf_keys EmptyString;
              Leaf.state := alive;
              Leaf.eatStartMs := 0;
              Leaf.eatDurationMs := 250;
              Leaf.respawnAt := 0;
              Leaf.x := fst p;
              Leaf.y := snd p;
              Leaf.r := 14 |} :: rest)
  end.

Definition createLeaves (zones : list Zone) : Rand (list Leaf.t) :=
  createLeaves_from 0 9 zones.

Definition respawnLeaf (leaf : Leaf.t) (zones : list Zone) : Rand Leaf.t :=
  let! p := pickSpawnPoint zones in
  ret {| Leaf.id := Leaf.id leaf; Leaf.img := Leaf.img leaf;
         Leaf.label := Leaf.label leaf;
         Leaf.state := alive;
         Leaf.eatStartMs := 0;
         Leaf.eatDurationMs := Leaf.eatDurationMs leaf;
         Leaf.respawnAt := 0;
         Leaf.x := fst p; Leaf.y := snd p; Leaf.r := Leaf.r leaf |}.

Definition startEatLeaf (leaf : Leaf.t) (nowMs : Z) : Leaf.t :=
  {| Leaf.id := Leaf.id leaf; Leaf.img := Leaf.img leaf;
     Leaf.label := Leaf.label leaf;
     Leaf.state := eating;
     Leaf.eatStartMs := nowMs;
     Leaf.eatDurationMs := Leaf.eatDurationMs leaf;
     Leaf.respawnAt := Leaf.respawnAt leaf;
     Leaf.x := Leaf.x leaf; Leaf.y := Leaf.y leaf; Leaf.r := Leaf.r leaf |}.

Definition finishEatLeaf (leaf : Leaf.t) (nowMs : Z) : Rand Leaf.t :=
  let! d := randInt 1400 3600 in
  ret {| Leaf.id := Leaf.id leaf; Leaf.img := Leaf.img leaf;
         Leaf.label := Leaf.label leaf;
         Leaf.state := dead;
         Leaf.eatStartMs := Leaf.eatStartMs leaf;
         Leaf.eatDurationMs := Leaf.eatDurationMs leaf;
         Leaf.respawnAt := nowMs + d;
         Leaf.x := Leaf.x leaf; Leaf.y := Leaf.y leaf; Leaf.r := Leaf.r leaf |}.

Definition createQuokka (groundY : Z) : Quokka.t :=
  {| Quokka.x := (WIDTH cfg * 0.5)%Q;
     Quokka.y := (inject_Z groundY + 26)%Q;
     Quokka.vx := 0; Quokka.vy := 0;
     Quokka.dirX := 1; Quokka.dirY := 0;
     Quokka.nextDirAt := 0;
     Quokka.speed := 56;
     Quokka.r := 18 |}.

Definition updateQuokka (q : Quokka.t) (dtSec : Q) (nowMs groundY : Z) : Rand Quokka.t :=
  let! q1 :=
    (if nowMs >=? Quokka.nextDirAt q then
       let! angle := rand 0 (PI math * 2)%Q in
       let! d := randInt 320 900 in
       ret {| Quokka.x := Quokka.x q; Quokka.y := Quokka.y q;
              Quokka.vx := Quokka.vx q; Quokka.vy := Quokka.vy q;
              Quokka.dirX := cos math angle;
              Quokka.dirY := (sin math angle * 0.35)%Q;
              Quokka.nextDirAt := nowMs + d;
              Quokka.speed := Quokka.speed q; Quokka.r := Quokka.r q |}
     else ret q) in
  let ax := (Quokka.dirX q1 * Quokka.speed q1 * 2.2)%Q in
  let ay := (Quokka.dirY q1 * Quokka.speed q1 * 2.2)%Q in
  let vx := ((Quokka.vx q1 + ax * dtSec) * pow math 0.06 dtSec)%Q in
  let vy := ((Quokka.vy q1 + ay * dtSec) * pow math 0.06 dtSec)%Q in
  let x := clamp (Quokka.x q1 + vx * dtSec)%Q 20 (WIDTH cfg - 20)%Q in
  let y := clamp (Quokka.y q1 + vy * dtSec)%Q
             (inject_Z groundY + 12)%Q (HEIGHT cfg - 10)%Q in
  let turn :=
    Qle_bool x 22 || Qle_bool (WIDTH cfg - 22)%Q x
    || Qle_bool y (inject_Z groundY + 14)%Q || Qle_bool (HEIGHT cfg - 12)%Q y in
  ret {| Quokka.x := x; Quokka.y := y; Quokka.vx := vx; Quokka.vy := vy;
         Quokka.dirX := Quokka.dirX q1; Quokka.dirY := Quokka.dirY q1;
         Quokka.nextDirAt := if turn then 0 else Quokka.nextDirAt q1;
         Quokka.speed := Quokka.speed q1; Quokka.r := Quokka.r q1 |}.

(** Returns the item after the call and the boolean the function returns. *)
Definition collideStartEat (q : Quokka.t) (leaf : Leaf.t) (nowMs : Z) : Leaf.t * bool :=
  if negb (LeafState_eqb (Leaf.state leaf) alive) then (leaf, false)
  else
    let rr := ((Quokka.r q + Leaf.r leaf) * (Quokka.r q + Leaf.r leaf))%Q in
    if Qle_bool (dist2 (Quokka.x q) (Quokka.y q) (Leaf.x leaf) (Leaf.y leaf)) rr
    then (startEatLeaf leaf nowMs, true)
    else (leaf, false).

Definition createPopup (text : string) (x y : Q) (nowMs : Z) : Popup.t :=
  {| Popup.text := "+" +:+ text; Popup.x := x; Popup.y := y;
     Popup.startMs := nowMs; Popup.durationMs := 1200 |}.

Definition updatePopups (popups : list Popup.t) (nowMs : Z) : list Popup.t :=
  List.filter (λ p, nowMs - Popup.startMs p <=? Popup.durationMs p) popups.

(** ** The three loops over the items in one step of [main] *)

(** "respawn dead leaves" *)
Definition respawn_loop (zones : list Zone) (nowMs : Z) : list Leaf.t → Rand (list Leaf.t) :=
  for_each (λ lf,
    if LeafState_eqb (Leaf.state lf) dead && (nowMs >=? Leaf.respawnAt lf)
    then respawnLeaf lf zones else ret lf).

(** "collisions => start eating": the items and the popup list after it. *)
Fixpoint collide_loop (q : Quokka.t) (nowMs : Z) (leaves : list Leaf.t)
    (popups : list Popup.t) : list Leaf.t * list Popup.t :=
  match leaves with
  | [] => ([], popups)
  | lf :: rest =>
      let (lf', started) := collideStartEat q lf nowMs in
      let popups' :=
        if started
        then popups ++ [createPopup (Leaf.label lf') (Quokka.x q) (Quokka.y q) nowMs]
        else popups in
      let (rest', popups'') := collide_loop q nowMs rest popups' in
      (lf' :: rest', popups'')
  end.

(** "finish eating when duration passes" *)
Definition finish_loop (nowMs : Z) : list Leaf.t → Rand (list Leaf.t) :=
  for_each (λ lf,
    if LeafState_eqb (Leaf.state lf) eating
       && (nowMs - Leaf.eatStartMs lf >=? Leaf.eatDurationMs lf)
    then finishEatLeaf lf nowMs else ret lf).

(** ** Rendering: only its calls of [Math.random()] matter to the scene *)

(** [drawWindingPath]: one draw per segment, two more for a shade stripe. *)
Fixpoint path_draws (segments : nat) : Rand unit :=
  match segments with
  | O => ret tt
  | S n =>
      let! u := random in
      let! _ := (if Qlt_bool u 0.20 then skip 2 else ret tt) in
      path_draws n
  end.

(** The number of turns of [for (let y = topY; y < bottomY; y += 4)]. *)
Definition path_segments (groundY : Z) : nat :=
  let topY := inject_Z (groundY - 10) in
  if Qle_bool (HEIGHT cfg) topY then O
  else Z.to_nat (Qceiling ((HEIGHT cfg - topY) / 4)).

Definition drawPixelBackground (groundY : Z) : Rand unit :=
  let! _ := skip (18 * 3) in                (* sky streaks *)
  let! _ := path_draws (path_segments groundY) in
  let! _ := skip (220 * 3) in               (* grass specks *)
  skip (26 * 3).                            (* flowers *)

(** ** The scene and one turn of the frame loop *)

Record Scene := { leaves : list Leaf.t; q : Quokka.t; popups : list Popup.t }.

(** What one frame shows. *)
Record Frame := { frame_index : nat; shown : Scene }.

Definition nowMs_of (i : nat) : Z :=
  Qfloor (inject_Z (Z.of_nat i) * 1000 / FPS cfg).

Definition dtSec : Q := (1 / FPS cfg)%Q.

(** The items after each of the three loops of turn [i], the walker and
    the popups pushed in that turn (before expiry is applied). *)
Record Turn := {
  respawned : list Leaf.t;
  walker : Quokka.t;
  collided : list Leaf.t;
  pushed : list Popup.t;
  finished : list Leaf.t
}.

Definition turn (zones : list Zone) (groundY : Z) (i : nat) (s : Scene) : Rand Turn :=
  let nowMs := nowMs_of i in
  let! l1 := respawn_loop zones nowMs (leaves s) in
  let! q' := updateQuokka (q s) dtSec nowMs groundY in
  let (l2, ps) := collide_loop q' nowMs l1 (popups s) in
  let! l3 := finish_loop nowMs l2 in
  ret {| respawned := l1; walker := q'; collided := l2; pushed := ps; finished := l3 |}.

Definition step (zones : list Zone) (groundY : Z) (i : nat) (s : Scene) : Rand (Scene * Frame) :=
  let! t := turn zones groundY i s in
  let s' := {| leaves := finished t; q := walker t;
               popups := updatePopups (pushed t) (nowMs_of i) |} in
  let! _ := drawPixelBackground groundY in
  ret (s', {| frame_index := i; shown := s' |}).

(** [count] turns of the loop from frame [i] on; the frames are returned in
    the order [encoder.addFrame] receives them. *)
Fixpoint frame_loop (zones : list Zone) (groundY : Z) (count i : nat) (s : Scene)
    : Rand (Scene * list Frame) :=
  match count with
  | O => ret (s, [])
  | S n =>
      let! r := step zones groundY i s in
      let! rs := frame_loop zones groundY n (S i) (fst r) in
      ret (fst rs, snd r :: snd rs)
  end.

Definition init (groundY : Z) : Rand Scene :=
  let zones := createSpawnZones groundY in
  let! ls := createLeaves zones in
  ret {| leaves := ls; q := createQuokka groundY; popups := [] |}.

(** [main] from [const dtSec] to the end of the frame loop, for a given
    [groundY].  The asset loading before it and the encoder are outside
    the model. *)
Definition simulate (groundY : Z) : Rand (Scene * list Frame) :=
  let! s := init groundY in
  frame_loop (createSpawnZones groundY) groundY (Z.to_nat (FRAMES cfg)) 0 s.

(** [Math.floor(HEIGHT * 0.58)] with the exact product.  The product of
    doubles can round below an integer that the exact product reaches, so
    the properties of the simulation are stated for every [groundY]. *)
Definition groundY_of : Z := Qfloor (HEIGHT cfg * 0.58).

Definition main : Scene * list Frame := fst (simulate groundY_of 0%nat).

(** ** The record of a run

    One entry per turn of the frame loop: the scene before it, the items
    after each of its three loops, and the scene after it. *)

Record Entry := { index : nat; before : Scene; during : Turn; after : Scene }.

(** The entries of [count] turns from frame [i], scene [s] and read
    position [p] of the draws. *)
Fixpoint log (zones : list Zone) (groundY : Z) (count i : nat) (s : Scene) (p : nat)
    : list Entry :=
  match count with
  | O => []
  | S n =>
      let r := step zones groundY i s p in
      {| index := i; before := s; during := fst (turn zones groundY i s p);
         after := fst (fst r) |}
      :: log zones groundY n (S i) (fst (fst r)) (snd r)
  end.

Definition run_log (groundY : Z) : list Entry :=
  let r := init groundY 0%nat in
  log (createSpawnZones groundY) groundY (Z.to_nat (FRAMES cfg)) 0 (fst r) (snd r).


End Simulation.

(** ** Vocabulary of the statements *)

(** The cycle of the item states. *)
Definition next (s : LeafState) : LeafState :=
  match s with alive => eating | eating => dead | dead => alive end.

(** The state stays or moves one place along the cycle. *)
Definition moves (a b : LeafState) : Prop := b = a ∨ b = next a.

(** Every two consecutive states of the sequence are related by [moves]. *)
Fixpoint on_cycle (tr : list LeafState) : Prop :=
  match tr with
  | a :: rest => match rest with b :: _ => moves a b | [] => True end ∧ on_cycle rest
  | [] => True
  end.

Definition states_of (k : nat) (ls : list Leaf.t) : list LeafState :=
  match ls !! k with Some lf => [Leaf.state lf] | None => [] end.

(** The states of item [k]: in scene [s], then after each loop of each
    recorded turn. *)
Definition item_trace (k : nat) (s : Scene) (es : list Entry) : list LeafState :=
  states_of k (leaves s)
  ++ flat_map (λ e, states_of k (respawned (during e))
                    ++ states_of k (collided (during e))
                    ++ states_of k (finished (during e))) es.

(** The number of items for which [collideStartEat] returns [true]. *)
Definition collisions (w : Quokka.t) (nowMs : Z) (ls : list Leaf.t) : nat :=
  length (List.filter (λ lf, snd (collideStartEat w lf nowMs)) ls).

(** What the popup list of a recorded turn satisfies: every collision of
    the turn pushed one popup; the list after the turn is the pushed list
    without the expired popups, so it is at most that much longer than
    before; and every popup left has the lifetime 1200 and has not outlived
    it at the time of the turn. *)
Definition popups_ok (cfg : Config) (e : Entry) : Prop :=
  let now := nowMs_of cfg (index e) in
  let started := collisions (walker (during e)) now (respawned (during e)) in
  length (pushed (during e)) = (length (popups (before e)) + started)%nat
  ∧ popups (after e) = updatePopups (pushed (during e)) now
  ∧ (length (popups (after e)) <= length (popups (before e)) + started)%nat
  ∧ Forall (λ pp, Popup.durationMs pp = 1200 ∧ now - Popup.startMs pp <= 1200)
      (popups (after e)).

(** Values of [Math] at the arguments of the example runs below (the
    angle 0, the exponent 1), a run of one frame on a canvas 30 wide, and
    draws that are all 0. *)
Definition sample_math : Math :=
  {| cos := λ _, 1%Q; sin := λ _, 0%Q; pow := λ b _, b; PI := 3.14159%Q |}.


Definition zero_rng : rng := λ _, Draw 0 eq_refl.

(** The default canvas with a run of one frame. *)
Definition single_frame : Config :=
  {| WIDTH := 720; HEIGHT := 200; FPS := 1; DURATION_SEC := 1 |}.

End Renderer.

(** * The README post-list syncer *)

(** ** More text helpers *)

(** [Some rest] when [s] reads [p] followed by [rest]. *)
Fixpoint strip_prefix (p s : string) : option string :=
  match p, s with
  | EmptyString, _ => Some s
  | String a p', String b s' => if Ascii.eqb a b then strip_prefix p' s' else None
  | String _ _, EmptyString => None
  end.

(** The text before and after the first occurrence of [needle]. *)
Fixpoint split_at (needle hay : string) : option (string * string) :=
  match strip_prefix needle hay with
  | Some rest => Some (EmptyString, rest)
  | None =>
      match hay with
      | EmptyString => None
      | String c hay' =>
          match split_at needle hay' with
          | Some (before, after) => Some (String c before, after)
          | None => None
          end
      end
  end.

(** [hay.includes(needle)] *)
Definition includes (hay needle : string) : bool :=
  match split_at needle hay with Some _ => true | None => false end.

(** [s.endsWith(suffix)] *)
Definition endsWith (s suffix : string) : bool :=
  match strip_prefix (rev_string EmptyString suffix) (rev_string EmptyString s) with
  | Some _ => true
  | None => false
  end.

(** [s.split('\n')] *)
Fixpoint split_lines (s : string) : list string :=
  match s with
  | EmptyString => [EmptyString]
  | String c rest =>
      if Ascii.eqb c (ascii_of_nat 10) then EmptyString :: split_lines rest
      else
        match split_lines rest with
        | l :: ls => String c l :: ls
        | [] => [String c EmptyString]
        end
  end.

Module Syncer.

(** ** JSON values and the exceptions of property access *)

Inductive json :=
  | JNull
  | JBool (b : bool)
  | JNum (z : Z)
  | JStr (s : string)
  | JArr (items : list json)
  | JObj (fields : list (string * json)).

(** A computation that may throw. *)
Inductive res (A : Type) := Ok (a : A) | Throw.
Arguments Ok {A} a.
Arguments Throw {A}.

(** The property [k] of a parsed object; of two equal keys the later one
    is the one [JSON.parse] keeps. *)
Fixpoint field (k : string) (fields : list (string * json)) : option json :=
  match fields with
  | [] => None
  | (k', v) :: rest =>
      match field k rest with
      | Some w => Some w
      | None => if String.eqb k k' then Some v else None
      end
  end.

(** [v.k]: reading a property of [null] throws; a value other than an
    object has none of the properties the script reads ([None] stands for
    [undefined]). *)
Definition prop (v : json) (k : string) : res (option json) :=
  match v with
  | JNull => Throw
  | JObj fields => Ok (field k fields)
  | _ => Ok None
  end.

(** The string a template literal makes of a value. *)
Fixpoint to_text (v : json) : string :=
  match v with
  | JNull => "null"
  | JBool true => "true"
  | JBool false => "false"
  | JNum z => Z_to_string z
  | JStr s => s
  | JArr items =>
      join "," (List.map (λ e, match e with JNull => EmptyString | _ => to_text e end) items)
  | JObj _ => "[object Object]"
  end.

Definition show (v : option json) : string :=
  match v with Some j => to_text j | None => "undefined" end.

(** ** Constants *)

Definition BLOG_REPO : string := "hyunbeanohh/ODDN-Blog".
Definition BLOG_CONTENT_PATH : string := "content/blog".
Definition BLOG_BASE_URL : string := "https://oddn.ai.kr".
Definition MAX_POSTS : nat := 5.
Definition startMarker : string := "<!-- BLOG-POST-LIST:START -->".
Definition endMarker : string := "<!-- BLOG-POST-LIST:END -->".

Definition root_url : string :=
  "https://api.github.com/repos/" +:+ BLOG_REPO +:+ "/contents/" +:+ BLOG_CONTENT_PATH.

(** ** The header block *)

Definition newline : ascii := ascii_of_nat 10.

(** The group of [/^---\s*\n([\s\S]*?)\n---/] once the newline before it
    is consumed: the shortest text followed by a newline and three
    dashes. *)
Definition header_text (s : string) : option string :=
  match split_at (nl +:+ "---") s with
  | Some (text, _) => Some text
  | None => None
  end.

(** The part of the pattern after the opening dashes.  [\s*] is greedy:
    it first tries to take one more white space character and gives it back
    when the rest of the pattern fails from there. *)
Fixpoint after_dashes (s : string) : option string :=
  match s with
  | EmptyString => None
  | String c rest =>
      match (if is_space c then after_dashes rest else None) with
      | Some text => Some text
      | None => if Ascii.eqb c newline then header_text rest else None
      end
  end.

Definition is_quote (c : ascii) : bool :=
  Ascii.eqb c (ascii_of_nat 34) || Ascii.eqb c "'".

Definition drop_last_quote (s : string) : string :=
  match rev_string EmptyString s with
  | String c rest => if is_quote c then rev_string EmptyString rest else s
  | EmptyString => s
  end.

(** [s.replace(/^["']|["']$/g, '')]; a double quote is character 34. *)
Definition strip_quotes (s : string) : string :=
  match s with
  | String c rest => if is_quote c then drop_last_quote rest else drop_last_quote s
  | EmptyString => s
  end.

(** The body of the loop over the lines. *)
Definition add_line (frontmatter : gmap string string) (line : string) : gmap string string :=
  match split_at ":" line with
  | None => frontmatter
  | Some (before, after) =>
      let key := trim before in
      let value := strip_quotes (trim after) in
      match key with
      | EmptyString => frontmatter
      | _ => <[key := value]> frontmatter
      end
  end.

Definition parseFrontmatter (content : string) : gmap string string :=
  match strip_prefix "---" content with
  | None => ∅
  | Some rest =>
      match after_dashes rest with
      | None => ∅
      | Some text => foldl add_line ∅ (split_lines text)
      end
  end.

(** ** Post records *)

Record Post := {
  title : string;
  date : string;
  description : string;
  slug : option json;        (* [folder.name], whatever value it is *)
  url : string
}.

(** [!s] for a property of the header: missing or empty. *)
Definition falsy (v : option string) : bool :=
  match v with
  | None => true
  | Some EmptyString => true
  | Some _ => false
  end.

(** [replacement] as [String.prototype.replace] expands it for a pattern
    without groups: [$$], [$&], [$`] and [$'] are the only sequences that
    are not copied. *)
Fixpoint GetSubstitution (matched before after replacement : string) : string :=
  match replacement with
  | EmptyString => EmptyString
  | String c rest =>
      if Ascii.eqb c "$" then
        match rest with
        | String d rest' =>
            if Ascii.eqb d "$" then
              String "$" (GetSubstitution matched before after rest')
            else if Ascii.eqb d "&" then
              matched +:+ GetSubstitution matched before after rest'
            else if Ascii.eqb d "`" then
              before +:+ GetSubstitution matched before after rest'
            else if Ascii.eqb d "'" then
              after +:+ GetSubstitution matched before after rest'
            else String c (GetSubstitution matched before after rest)
        | EmptyString => String c EmptyString
        end
      else String c (GetSubstitution matched before after rest)
  end.

(** The first match of [startMarker[\s\S]*?endMarker]: the text before
    it, the text between the two markers, and the text after it. *)
Fixpoint find_section (readme : string) : option (string * string * string) :=
  match
    match strip_prefix startMarker readme with
    | Some rest => split_at endMarker rest
    | None => None
    end
  with
  | Some (between, after) => Some (EmptyString, between, after)
  | None =>
      match readme with
      | EmptyString => None
      | String c readme' =>
          match find_section readme' with
          | Some (before, between, after) => Some (String c before, between, after)
          | None => None
          end
      end
  end.

(** Insertion of [p] into a list ordered by [before]: [p] goes behind
    every record that does not have to come after it. *)
Fixpoint insert_by {A} (cmp : A → A → Z) (p : A) (sorted : list A) : list A :=
  match sorted with
  | [] => [p]
  | a :: rest => if 0 <? cmp a p then p :: sorted else a :: insert_by cmp p rest
  end.

(** [Array.prototype.sort(cmp)]: a stable sort.  The result of a stable
    sort is determined by the comparison whenever that is consistent,
    which it is here when every date parses. *)
Definition sort_by {A} (cmp : A → A → Z) (l : list A) : list A :=
  foldl (λ sorted p, insert_by cmp p sorted) [] l.

Section Run.

(** The world of one run: the remote API ([None]: the request fails, with an
    error, a status other than 200 or a body that is not JSON), the decoding
    of a [content] value by [Buffer.from(_, 'base64').toString('utf-8')]
    ([None]: it throws), the time value of [new Date(s)] ([None]: NaN) and
    [toLocaleDateString]. *)
Context (api : option json → option json)
        (decode : json → option string)
        (date_ms : string → option Z)
        (toLocaleDateString : string → string).

Definition githubRequest (url : option json) : res json :=
  match api url with
  | Some body => Ok body
  | None => Throw
  end.

(** [f.name.endsWith(suffix)] *)
Definition name_endsWith (suffix : string) (f : json) : res bool :=
  match prop f "name" with
  | Ok (Some (JStr name)) => Ok (endsWith name suffix)
  | _ => Throw
  end.

(** [items.find((f) => f.name.endsWith(suffix))] *)
Fixpoint find_file (suffix : string) (items : list json) : res (option json) :=
  match items with
  | [] => Ok None
  | f :: rest =>
      match name_endsWith suffix f with
      | Throw => Throw
      | Ok true => Ok (Some f)
      | Ok false => find_file suffix rest
      end
  end.

(** The body of the [try] block for one folder: [Ok None] is a [continue]
    after a warning, [Throw] is caught by the loop. *)
Definition fetch_post (folder : json) : res (option Post) :=
  match prop folder "url" with
  | Throw => Throw
  | Ok folder_url =>
  match githubRequest folder_url with
  | Throw => Throw
  | Ok (JArr dirContents) =>
      match find_file ".mdx" dirContents with
      | Throw => Throw
      | Ok found_mdx =>
      match
        match found_mdx with
        | Some f => Ok (Some f)
        | None => find_file ".md" dirContents
        end
      with
      | Throw => Throw
      | Ok None => Ok None
      | Ok (Some mdxFile) =>
      match prop mdxFile "url" with
      | Throw => Throw
      | Ok file_url =>
      match githubRequest file_url with
      | Throw => Throw
      | Ok fileData =>
      match prop fileData "content" with
      | Throw | Ok None => Throw
      | Ok (Some content) =>
      match decode content with
      | None => Throw
      | Some rawContent =>
          let fm := parseFrontmatter rawContent in
          if falsy (fm !! "title") || falsy (fm !! "date") then Ok None
          else
            match prop folder "name" with
            | Throw => Throw
            | Ok name =>
                Ok (Some {| title := default EmptyString (fm !! "title");
                            date := default EmptyString (fm !! "date");
                            description := default EmptyString (fm !! "description");
                            slug := name;
                            url := BLOG_BASE_URL +:+ "/" +:+ show name |})
            end
      end end end end end end
  | Ok _ => Throw                         (* no [find] on the listing *)
  end end.

(** [blogDir.filter((item) => item.type === 'dir')] *)
Fixpoint filter_dirs (items : list json) : res (list json) :=
  match items with
  | [] => Ok []
  | item :: rest =>
      match prop item "type" with
      | Throw => Throw
      | Ok ty =>
          match filter_dirs rest with
          | Throw => Throw
          | Ok dirs =>
              match ty with
              | Some (JStr t) => if String.eqb t "dir" then Ok (item :: dirs) else Ok dirs
              | _ => Ok dirs
              end
          end
      end
  end.

(** The loop over the folders: [posts] after it. *)
Fixpoint collect (folders : list json) : list Post :=
  match folders with
  | [] => []
  | folder :: rest =>
      match fetch_post folder with
      | Ok (Some post) => post :: collect rest
      | _ => collect rest
      end
  end.

(** [(a, b) => new Date(b.date) - new Date(a.date)], NaN read as 0 as
    [sort] does. *)
Definition by_date (a b : Post) : Z :=
  match date_ms (date b), date_ms (date a) with
  | Some tb, Some ta => tb - ta
  | _, _ => 0
  end.

Definition getLatestPosts : res (list Post) :=
  match githubRequest (Some (JStr root_url)) with
  | Throw => Throw
  | Ok (JArr blogDir) =>
      match filter_dirs blogDir with
      | Throw => Throw
      | Ok folders => Ok (take MAX_POSTS (sort_by by_date (collect folders)))
      end
  | Ok _ => Throw
  end.

Definition formatDate (dateStr : string) : string := toLocaleDateString dateStr.

Definition post_line (post : Post) : string :=
  "- [" +:+ title post +:+ "](" +:+ url post +:+ ") <sub>"
    +:+ formatDate (date post) +:+ "</sub>".

Definition newSection (posts : list Post) : string :=
  startMarker +:+ nl +:+ join nl (List.map post_line posts) +:+ nl +:+ endMarker.

(** [readme.replace(new RegExp(...), newSection)] *)
Definition replace_section (readme replacement : string) : string :=
  match find_section readme with
  | None => readme
  | Some (before, between, after) =>
      let matched := startMarker +:+ between +:+ endMarker in
      before +:+ GetSubstitution matched before after replacement +:+ after
  end.

(** [updateReadme]: the new text of the file, or an exception.  [None] for
    the file: it does not exist. *)
Definition updateReadme (file : option string) (posts : list Post) : res string :=
  match file with
  | None => Throw
  | Some readme =>
      if negb (includes readme startMarker) || negb (includes readme endMarker)
      then Throw
      else Ok (replace_section readme (newSection posts))
  end.

Inductive exit_code := Exit0 | Exit1.

(** [main] with its [catch]: the exit code and the text that
    [fs.writeFileSync] writes to the README ([None]: nothing is written).
    [token] is the environment variable, [file] the README before the run. *)
Definition main (token : option string) (file : option string) : exit_code * option string :=
  if falsy token then (Exit1, None)
  else
    match getLatestPosts with
    | Throw => (Exit1, None)
    | Ok [] => (Exit0, None)
    | Ok posts =>
        match updateReadme file posts with
        | Throw => (Exit1, None)
        | Ok updated => (Exit0, Some updated)
        end
    end.

(** The README after a run that wrote [written]. *)
Definition file_after (file written : option string) : option string :=
  match written with
  | Some text => Some text
  | None => file
  end.

(** ** Vocabulary of the statements *)








End Run.


(** ** An example world: two folders whose posts carry the same date *)

Definition example_header (post_title : string) : string :=
  "---" +:+ nl +:+ "title: " +:+ quoted post_title +:+ nl
  +:+ "date: 2024-01-01" +:+ nl +:+ "---" +:+ nl +:+ "Hello" +:+ nl.

Definition example_dir (name : string) : json :=
  JObj [("name", JStr name); ("type", JStr "dir"); ("url", JStr ("api/" +:+ name))].

Definition example_listing (name : string) : json :=
  JArr [JObj [("name", JStr "index.mdx"); ("type", JStr "file");
              ("url", JStr ("api/" +:+ name +:+ "/index.mdx"))]].

Definition example_api (url : option json) : option json :=
  match url with
  | Some (JStr u) =>
      if String.eqb u root_url then
        Some (JArr [example_dir "first-post"; example_dir "second-post"])
      else if String.eqb u "api/first-post" then Some (example_listing "first-post")
      else if String.eqb u "api/second-post" then Some (example_listing "second-post")
      else if String.eqb u "api/first-post/index.mdx" then
        Some (JObj [("content",
                     JStr "LS0tCnRpdGxlOiAiRmlyc3QiCmRhdGU6IDIwMjQtMDEtMDEKLS0tCkhlbGxvCg==")])
      else if String.eqb u "api/second-post/index.mdx" then
        Some (JObj [("content",
                     JStr "LS0tCnRpdGxlOiAiU2Vjb25kIgpkYXRlOiAyMDI0LTAxLTAxCi0tLQpIZWxsbwo=")])
      else None
  | _ => None
  end.

(** The two base64 texts above, decoded. *)
Definition example_decode (content : json) : option string :=
  match content with
  | JStr b =>
      if String.eqb b "LS0tCnRpdGxlOiAiRmlyc3QiCmRhdGU6IDIwMjQtMDEtMDEKLS0tCkhlbGxvCg=="
      then Some (example_header "First")
      else if String.eqb b "LS0tCnRpdGxlOiAiU2Vjb25kIgpkYXRlOiAyMDI0LTAxLTAxCi0tLQpIZWxsbwo="
      then Some (example_header "Second")
      else None
  | _ => None
  end.

Definition example_date_ms (s : string) : option Z :=
  if String.eqb s "2024-01-01" then Some 1704067200000 else None.

Definition example_toLocaleDateString (s : string) : string :=
  if String.eqb s "2024-01-01" then "2024. 01. 01." else "Invalid Date".


Definition example_readme : string :=
  "# Hi" +:+ nl +:+ startMarker +:+ nl +:+ "- old" +:+ nl +:+ endMarker +:+ nl +:+ "bye" +:+ nl.

End Syncer.

(** * The renderer: what a frame draws of the popups and the items *)

Module Drawing.

Import Renderer.

(** [Math.round]: the nearest integer, halves upwards. *)
Definition round (x : Q) : Z := Qfloor (x + (1 # 2)).

(** [String.prototype.toUpperCase] on the ASCII letters. *)
Definition upper_ascii (c : ascii) : ascii :=
  let n := nat_of_ascii c in
  if (97 <=? n)%nat && (n <=? 122)%nat then ascii_of_nat (n - 32) else c.

Definition FONT_5X7 : list (ascii * list string) :=
  [ ("+"%char, ["00100"; "00100"; "11111"; "00100"; "00100"; "00000"; "00000"]);
    ("A"%char, ["01110"; "10001"; "10001"; "11111"; "10001"; "10001"; "10001"]);
    ("C"%char, ["01111"; "10000"; "10000"; "10000"; "10000"; "10000"; "01111"]);
    ("E"%char, ["11111"; "10000"; "10000"; "11110"; "10000"; "10000"; "11111"]);
    ("I"%char, ["11111"; "00100"; "00100"; "00100"; "00100"; "00100"; "11111"]);
    ("J"%char, ["00111"; "00010"; "00010"; "00010"; "00010"; "10010"; "01100"]);
    ("N"%char, ["10001"; "11001"; "10101"; "10011"; "10001"; "10001"; "10001"]);
    ("O"%char, ["01110"; "10001"; "10001"; "10001"; "10001"; "10001"; "01110"]);
    ("R"%char, ["11110"; "10001"; "10001"; "11110"; "10100"; "10010"; "10001"]);
    ("S"%char, ["01111"; "10000"; "10000"; "01110"; "00001"; "00001"; "11110"]);
    ("T"%char, ["11111"; "00100"; "00100"; "00100"; "00100"; "00100"; "00100"]);
    ("X"%char, ["10001"; "01010"; "00100"; "00100"; "00100"; "01010"; "10001"]);
    ("Y"%char, ["10001"; "01010"; "00100"; "00100"; "00100"; "00100"; "00100"]) ].

(** [FONT_5X7[ch] || null] *)
Fixpoint glyph_in (font : list (ascii * list string)) (ch : ascii) : option (list string) :=
  match font with
  | [] => None
  | (c, g) :: rest => if Ascii.eqb c ch then Some g else glyph_in rest ch
  end.

Definition glyph (ch : ascii) : option (list string) := glyph_in FONT_5X7 ch.

(** A call of [ctx.fillRect]. *)
Record Rect := { rect_x : Z; rect_y : Z; rect_w : Q; rect_h : Q }.

(** The cells of a glyph that are ["1"], rows first. *)
Definition glyph_cells (g : list string) : list (nat * nat) :=
  flat_map (λ row,
    flat_map (λ col,
      match String.get col (nth row g EmptyString) with
      | Some c => if Ascii.eqb c "1" then [(row, col)] else []
      | None => []
      end) (seq 0 5)) (seq 0 7).

(** The rectangles [drawPixelText] fills for [text], the cursor being at
    [cursor]. *)
Fixpoint drawPixelText (text : string) (cursor y scale : Q) : list Rect :=
  match text with
  | EmptyString => []
  | String chRaw rest =>
      match glyph (upper_ascii chRaw) with
      | None => drawPixelText rest (cursor + 6 * scale)%Q y scale
      | Some g =>
          List.map (λ cell,
                 {| rect_x := round (cursor + inject_Z (Z.of_nat (snd cell)) * scale);
                    rect_y := round (y + inject_Z (Z.of_nat (fst cell)) * scale);
                    rect_w := scale; rect_h := scale |}) (glyph_cells g)
          ++ drawPixelText rest (cursor + 6 * scale)%Q y scale
      end
  end.

(** A text as [drawPopups] has it drawn. *)
Record TextDraw := { cells : list Rect; color : string; opacity : Q }.

(** The elapsed part [t] of the lifetime of a popup, its opacity and its
    offsets, as [drawPopups] computes them for the popup at index [i]. *)
Definition popup_t (p : Popup.t) (nowMs : Z) : Q :=
  (inject_Z (nowMs - Popup.startMs p) / inject_Z (Popup.durationMs p))%Q.

Definition popup_alpha (p : Popup.t) (nowMs : Z) : Q := clamp (1 - popup_t p nowMs) 0 1.

Definition popup_dy (p : Popup.t) (nowMs : Z) : Z := round (popup_t p nowMs * 12).

Definition popup_dx (i : nat) (p : Popup.t) (nowMs : Z) : Z :=
  (if Nat.even i then -1 else 1) * round (popup_t p nowMs * 10).

Fixpoint drawPopups_from (cfg : Config) (i : nat) (popups : list Popup.t) (nowMs : Z)
    : list TextDraw :=
  match popups with
  | [] => []
  | p :: rest =>
      let baseY := (HEIGHT cfg - 26)%Q in
      let alpha := popup_alpha p nowMs in
      let dy := popup_dy p nowMs in
      let dx := popup_dx i p nowMs in
      let left := round (WIDTH cfg / 2 - 60 + inject_Z dx) in
      {| cells := drawPixelText (Popup.text p) (inject_Z (left + 2))
                    (baseY - inject_Z dy + 2)%Q 2;
         color := "#000000"; opacity := (alpha * 0.25)%Q |}
      :: {| cells := drawPixelText (Popup.text p) (inject_Z left)
                       (baseY - inject_Z dy)%Q 2;
            color := "#2b1b0f"; opacity := alpha |}
      :: drawPopups_from cfg (S i) rest nowMs
  end.

Definition drawPopups (cfg : Config) (popups : list Popup.t) (nowMs : Z) : list TextDraw :=
  drawPopups_from cfg 0 popups nowMs.

(** A call of [ctx.drawImage] for an item. *)
Record ImageDraw := { image : nat; left : Z; top : Z; width : Z; height : Z }.

(** The factor by which [drawLeaves] shrinks an item. *)
Definition leaf_scale (lf : Leaf.t) (nowMs : Z) : Q :=
  match Leaf.state lf with
  | eating =>
      let t := clamp (inject_Z (nowMs - Leaf.eatStartMs lf)
                      / inject_Z (Leaf.eatDurationMs lf))%Q 0 1 in
      ((1 - t) * (1 - t))%Q
  | _ => 1
  end.

Fixpoint drawLeaves (leaves : list Leaf.t) (leafPx : Q) (nowMs : Z) : list ImageDraw :=
  match leaves with
  | [] => []
  | lf :: rest =>
      match Leaf.state lf with
      | dead => drawLeaves rest leafPx nowMs
      | _ =>
          let w := Z.max 1 (round (leafPx * leaf_scale lf nowMs)) in
          let h := Z.max 1 (round (leafPx * leaf_scale lf nowMs)) in
          {| image := Leaf.img lf;
             left := round (Leaf.x lf - inject_Z w / 2);
             top := round (Leaf.y lf - inject_Z h / 2);
             width := w; height := h |}
          :: drawLeaves rest leafPx nowMs
      end
  end.

End Drawing.

(** * Vocabulary of the further statements *)

Module Facts.

Import Renderer.

(** The point is in the rectangle the zone spans. *)
Definition in_zone (z : Zone) (x y : Q) : Prop :=
  (Qmin (x1 z) (x2 z) <= x)%Q ∧ (x <= Qmax (x1 z) (x2 z))%Q
  ∧ (Qmin (y1 z) (y2 z) <= y)%Q ∧ (y <= Qmax (y1 z) (y2 z))%Q.

Definition in_some_zone (zones : list Zone) (lf : Leaf.t) : Prop :=
  ∃ z, z ∈ zones ∧ in_zone z (Leaf.x lf) (Leaf.y lf).

(** The item at place [k] of the scene is the one [createLeaves] made for
    place [k], up to its state, times and position. *)
Definition item_at (k : nat) (lf : Leaf.t) : Prop :=
  Leaf.id lf = k
  ∧ Leaf.img lf = (k mod 5)%nat
  ∧ Leaf.label lf = nth (k mod 5) leaf_keys EmptyString
  ∧ Leaf.eatDurationMs lf = 250
  ∧ Leaf.r lf = 14%Q.

(** The fields of an item that no loop assigns. *)
Definition same_item (a b : Leaf.t) : Prop :=
  Leaf.id b = Leaf.id a ∧ Leaf.img b = Leaf.img a ∧ Leaf.label b = Leaf.label a
  ∧ Leaf.eatDurationMs b = Leaf.eatDurationMs a ∧ Leaf.r b = Leaf.r a.

(** What each loop keeps of an item. *)
Definition kept (zones : list Zone) (a a' : Leaf.t) : Prop :=
  same_item a a' ∧ (in_some_zone zones a → in_some_zone zones a').

(** What every scene of a run keeps: the nine items in their places and
    inside the spawn zones, the radius and speed of the walker, and popup
    texts made of a plus sign and a key of [leaf_keys]. *)
Definition scene_inv (zones : list Zone) (s : Scene) : Prop :=
  Forall2 item_at (seq 0 9) (leaves s)
  ∧ Forall (in_some_zone zones) (leaves s)
  ∧ Quokka.r (q s) = 18%Q ∧ Quokka.speed (q s) = 56%Q
  ∧ Forall (λ p, ∃ key, key ∈ leaf_keys ∧ Popup.text p = "+" +:+ key) (popups s).

(** The times of the moves of item [k] in a recorded turn. *)
Definition item_times (cfg : Config) (k : nat) (e : Entry) : Prop :=
  let now := nowMs_of cfg (index e) in
  ∀ a0 a1 a2 a3,
    leaves (before e) !! k = Some a0 →
    respawned (during e) !! k = Some a1 →
    collided (during e) !! k = Some a2 →
    finished (during e) !! k = Some a3 →
    (Leaf.state a0 = dead → Leaf.state a1 = alive → Leaf.respawnAt a0 <= now)
    ∧ (Leaf.state a1 = alive → Leaf.state a2 = eating →
       Leaf.eatStartMs a2 = now ∧ Leaf.state a3 = eating)
    ∧ (Leaf.state a2 = eating → Leaf.state a3 = dead →
       250 <= now - Leaf.eatStartMs a2
       ∧ now + 1400 <= Leaf.respawnAt a3 <= now + 3600).

(** The characters of a text. *)
Fixpoint chars (s : string) : list ascii :=
  match s with
  | EmptyString => []
  | String c rest => c :: chars rest
  end.

End Facts.

Module SyncFacts.

Import Syncer.

(** The entry is one the filter of [getLatestPosts] keeps. *)
Definition is_dir (item : json) : bool :=
  match prop item "type" with
  | Ok (Some (JStr t)) => String.eqb t "dir"
  | _ => false
  end.

(** A record with a dollar sign in its title. *)
Definition dollar_post : Post :=
  {| title := "Cost: $$5"; date := "2024-01-01"; description := EmptyString;
     slug := Some (JStr "cost"); url := "https://oddn.ai.kr/cost" |}.


End SyncFacts.

(** * Properties *)

Lemma draw_range (d : draw) : (0 <= dval d)%Q ∧ (dval d < 1)%Q.
Proof.
  destruct d as [q Hq]; simpl. unfold in_unit in Hq.
  apply andb_true_iff in Hq as [H0 H1].
  apply Qle_bool_iff in H0. split; [exact H0|].
  apply negb_true_iff in H1. apply Qnot_le_lt. intros Hle.
  apply Qle_bool_iff in Hle. congruence.
Qed.

Lemma floor_scaled_range (d : draw) (n : Z) :
  0 < n → 0 <= floor_scaled d n < n.
Proof.
  intros Hn. destruct (draw_range d) as [H0 H1]. unfold floor_scaled.
  assert (Hq : (inject_Z 0 < inject_Z n)%Q) by (rewrite <- Zlt_Qlt; exact Hn).
  split.
  - rewrite <- (Qfloor_Z 0). apply Qfloor_resp_le.
    apply Qmult_le_0_compat; [exact H0 | apply Qlt_le_weak, Hq].
  - assert (Hlt : (dval d * inject_Z n < inject_Z n)%Q).
    { rewrite <- (Qmult_1_l (inject_Z n)) at 2.
      apply Qmult_lt_compat_r; assumption. }
    assert (Hfl := Qfloor_le (dval d * inject_Z n)).
    rewrite Zlt_Qlt. eapply Qle_lt_trans; eassumption.
Qed.


(** ** The state-board updater *)

Section UpdaterFacts.

Import Updater.

Lemma js_add_swap (a b c : jsnum) : js_add (js_add a b) c = js_add (js_add a c) b.
Proof. destruct a, b, c; simpl; try reflexivity. f_equal. lia. Qed.

Lemma totalEaten_insert (m : gmap string jsnum) (k : string) (v : jsnum) :
  m !! k = None → totalEaten (<[k := v]> m) = js_add (totalEaten m) v.
Proof.
  intros Hk. unfold totalEaten.
  rewrite map_fold_insert_L; [reflexivity | | exact Hk].
  intros. apply js_add_swap.
Qed.

(** Replacing the count of [k] replaces its share of the sum. *)
Lemma totalEaten_replace (m : gmap string jsnum) (k : string) (v : jsnum) :
  totalEaten (<[k := v]> m) = js_add (totalEaten (delete k m)) v.
Proof.
  rewrite <- (insert_delete_eq m k v).
  apply totalEaten_insert, lookup_delete_eq.
Qed.

Lemma totalEaten_split (m : gmap string jsnum) (k : string) (v : jsnum) :
  m !! k = Some v → totalEaten m = js_add (totalEaten (delete k m)) v.
Proof.
  intros Hk. rewrite <- (insert_id m k v Hk) at 1. apply totalEaten_replace.
Qed.

Lemma sum_counts_insert (m : gmap string Z) (k : string) (c : Z) :
  m !! k = None → sum_counts (<[k := c]> m) = sum_counts m + c.
Proof.
  intros Hk. unfold sum_counts.
  rewrite map_fold_insert_L; [reflexivity | | exact Hk].
  intros. lia.
Qed.

Lemma sum_counts_incr (m : gmap string Z) (k : string) (c : Z) :
  m !! k = Some c → sum_counts (<[k := c + 1]> m) = sum_counts m + 1.
Proof.
  intros Hk.
  rewrite <- (insert_delete_eq m k (c + 1)).
  rewrite sum_counts_insert by apply lookup_delete_eq.
  rewrite <- (insert_id m k c Hk) at 2.
  rewrite <- (insert_delete_eq m k c).
  rewrite (sum_counts_insert (delete k m)) by apply lookup_delete_eq.
  lia.
Qed.

Lemma totalEaten_ints (m : gmap string Z) :
  totalEaten (JInt <$> m) = JInt (sum_counts m).
Proof.
  induction m as [|k c m Hk IH] using map_ind.
  - rewrite fmap_empty. reflexivity.
  - rewrite fmap_insert, totalEaten_insert by (rewrite lookup_fmap, Hk; reflexivity).
    rewrite IH, sum_counts_insert by exact Hk. reflexivity.
Qed.

Lemma index_techStacks (i : Z) :
  0 <= i < 5 → ∃ t, index techStacks i = Some t ∧ t ∈ techStacks.
Proof.
  intros Hi. unfold index.
  destruct (Z.ltb_spec i 0) as [Hneg|_]; [lia|].
  assert (Hlt : (Z.to_nat i < length techStacks)%nat) by (simpl; lia).
  destruct (lookup_lt_is_Some_2 techStacks _ Hlt) as [t Ht].
  exists t. split; [exact Ht|]. eapply list_elem_of_lookup_2, Ht.
Qed.

Lemma randomized_target (st : State) (r : rng) :
  ∃ t, current_target (update st r) = Some t ∧ t ∈ techStacks.
Proof.
  simpl. apply index_techStacks. apply (floor_scaled_range (r 0%nat) 5). lia.
Qed.

End UpdaterFacts.

(** C1.  After a run the stored level is [floor(total / 5) + 1] for the
    total of the counts after the count of the previous target was
    incremented: the stored record is the updated one; its counts are the
    old ones with the previous target incremented; its level is computed from
    their sum (in JavaScript arithmetic, whatever the record); where the
    previous target had a count the sum is the old sum plus one, and for
    integer counts the level is the integer [(sum + 1) / 5 + 1], rounded
    down; the prior level has no influence. *)
Theorem quokka_level_recomputed (s : Updater.Store) (st : Updater.State) (r : rng) :
  Updater.state_json s = Some st →
  let st' := Updater.update st r in
  let k := Updater.key_of (Updater.current_target st) in
  Updater.state_json (Updater.store_of (Updater.run s r)) = Some st'
  ∧ Updater.eaten_leaves st'
    = <[k := Updater.incr (Updater.eaten_leaves st !! k)]> (Updater.eaten_leaves st)
  ∧ Updater.quokka_level st'
    = Updater.level_of (Updater.totalEaten (Updater.eaten_leaves st'))
  ∧ (∀ v, Updater.eaten_leaves st !! k = Some v →
       Updater.totalEaten (Updater.eaten_leaves st')
       = Updater.js_add (Updater.totalEaten (Updater.eaten_leaves st)) (Updater.JInt 1))
  ∧ (∀ (m : gmap string Z) (c : Z),
       Updater.eaten_leaves st = Updater.JInt <$> m → m !! k = Some c →
       Updater.eaten_leaves st' = Updater.JInt <$> <[k := c + 1]> m
       ∧ Updater.sum_counts (<[k := c + 1]> m) = Updater.sum_counts m + 1
       ∧ Updater.quokka_level st'
         = Updater.JInt (Updater.sum_counts (<[k := c + 1]> m) `div` 5 + 1))
  ∧ (∀ lvl, Updater.quokka_level (Updater.update (Updater.with_level st lvl) r)
            = Updater.quokka_level st').
Proof.
  intros Hst st' k.
  split; [|split; [reflexivity|split; [reflexivity|split; [|split]]]].
  - unfold Updater.run. rewrite Hst. fold st'.
    destruct (Updater.current_target st'); reflexivity.
  - intros v Hv. simpl. fold k. rewrite Hv. simpl.
    rewrite totalEaten_replace, (totalEaten_split _ k v Hv).
    destruct (Updater.totalEaten (delete k (Updater.eaten_leaves st))), v;
      simpl; try reflexivity. f_equal. lia.
  - intros m c Hm Hc.
    assert (Heaten : Updater.eaten_leaves st' = Updater.JInt <$> <[k := c + 1]> m).
    { simpl. fold k. rewrite Hm, lookup_fmap, Hc. simpl.
      rewrite fmap_insert. reflexivity. }
    split; [exact Heaten|]. split; [apply sum_counts_incr; exact Hc|].
    change (Updater.quokka_level st')
      with (Updater.level_of (Updater.totalEaten (Updater.eaten_leaves st'))).
    rewrite Heaten, totalEaten_ints. reflexivity.
  - intros lvl. reflexivity.
Qed.

Lemma quokka_level_recomputed_witness :
  Updater.quokka_level (Updater.update Updater.example_state Updater.example_rng)
  = Updater.JInt 2.
Proof.
  destruct (quokka_level_recomputed Updater.example_store Updater.example_state
              Updater.example_rng eq_refl) as (_ & _ & _ & _ & Hint & _).
  destruct (Hint Updater.example_counts 3 eq_refl eq_refl) as (_ & _ & Hlevel).
  rewrite Hlevel. reflexivity.
Defined.

(** C5.  Whatever the random source returns, the new target is one of the
    five names of [techStacks] and the new position has [50 <= x <= 649] and
    [100 <= y <= 299]. *)
Theorem randomized_fields_in_range (st : Updater.State) (r : rng) :
  let st' := Updater.update st r in
  (∃ t, Updater.current_target st' = Some t
        ∧ t ∈ ["JS"; "TS"; "React"; "Next.js"; "AI"])
  ∧ 50 <= Updater.x (Updater.position st') <= 649
  ∧ 100 <= Updater.y (Updater.position st') <= 299.
Proof.
  intros st'. split; [exact (randomized_target st r)|]. simpl. split.
  - pose proof (floor_scaled_range (r 1%nat) 600). lia.
  - pose proof (floor_scaled_range (r 2%nat) 200). lia.
Qed.



(** ** The scene simulation *)

Section RendererFacts.

Import Renderer.

Context (cfg : Config) (math : Math) (draws : rng).

Lemma clamp_bounds (n a b : Q) : (a <= b)%Q → (a <= clamp n a b)%Q ∧ (clamp n a b <= b)%Q.
Proof.
  intros Hab. unfold clamp. split.
  - apply Q.le_max_l.
  - apply Q.max_lub; [exact Hab | apply Q.le_min_l].
Qed.

Lemma clamp_lower (n a b : Q) : (a <= clamp n a b)%Q.
Proof. apply Q.le_max_l. Qed.


(** A [for_each] loop keeps the length and runs its body on every element. *)
Lemma for_each_Forall2 {A} (body : A → Rand A) (l : list A) (p : nat) :
  Forall2 (λ a a', ∃ p1, a' = fst (body a p1)) l (fst (for_each body l p)).
Proof.
  revert p. induction l as [|a l IH]; intros p; simpl.
  - constructor.
  - unfold bind. destruct (body a p) as [a' p1] eqn:Ha.
    specialize (IH p1). destruct (for_each body l p1) as [l' p2]. simpl in *.
    constructor; [|exact IH]. exists p. rewrite Ha. reflexivity.
Qed.

Lemma respawn_loop_moves (zones : list Zone) (now : Z) (ls : list Leaf.t) (p : nat) :
  Forall2 (λ a a', Leaf.state a' = Leaf.state a
                   ∨ Leaf.state a = dead ∧ Leaf.state a' = alive)
    ls (fst (respawn_loop draws zones now ls p)).
Proof.
  eapply Forall2_impl; [apply for_each_Forall2|].
  intros a a' [p1 ->]. simpl.
  destruct (Leaf.state a) eqn:Hs; simpl; auto.
  destruct (now >=? Leaf.respawnAt a); simpl; auto.
Qed.

Lemma finish_loop_moves (now : Z) (ls : list Leaf.t) (p : nat) :
  Forall2 (λ a a', Leaf.state a' = Leaf.state a
                   ∨ Leaf.state a = eating ∧ Leaf.state a' = dead)
    ls (fst (finish_loop draws now ls p)).
Proof.
  eapply Forall2_impl; [apply for_each_Forall2|].
  intros a a' [p1 ->]. simpl.
  destruct (Leaf.state a) eqn:Hs; simpl; auto.
  destruct (now - Leaf.eatStartMs a >=? Leaf.eatDurationMs a); simpl; auto.
Qed.

(** [collideStartEat] acts on items that are [alive] only. *)
Lemma collideStartEat_cases (w : Quokka.t) (lf : Leaf.t) (now : Z) :
  collideStartEat w lf now = (lf, false)
  ∨ Leaf.state lf = alive ∧ collideStartEat w lf now = (startEatLeaf lf now, true).
Proof.
  unfold collideStartEat.
  destruct (Leaf.state lf) eqn:Hs; simpl; auto.
  destruct (Qle_bool _ _); auto.
Qed.

Lemma collide_loop_items (w : Quokka.t) (now : Z) (ls : list Leaf.t) (ps : list Popup.t) :
  fst (collide_loop w now ls ps) = List.map (λ lf, fst (collideStartEat w lf now)) ls.
Proof.
  revert ps. induction ls as [|lf ls IH]; intros ps; simpl; [reflexivity|].
  destruct (collideStartEat w lf now) as [lf' started].
  match goal with |- context [collide_loop w now ls ?ps'] =>
    specialize (IH ps'); destruct (collide_loop w now ls ps') as [rest' ps'']
  end.
  simpl in *. rewrite IH. reflexivity.
Qed.

Lemma collide_loop_popups (w : Quokka.t) (now : Z) (ls : list Leaf.t) (ps : list Popup.t) :
  snd (collide_loop w now ls ps)
  = ps ++ List.map (λ lf, createPopup (Leaf.label lf) (Quokka.x w) (Quokka.y w) now)
            (List.filter (λ lf, snd (collideStartEat w lf now)) ls).
Proof.
  revert ps. induction ls as [|lf ls IH]; intros ps; simpl.
  - rewrite app_nil_r. reflexivity.
  - destruct (collideStartEat_cases w lf now) as [Hc|[_ Hc]]; rewrite Hc; simpl.
    + specialize (IH ps). destruct (collide_loop w now ls ps). exact IH.
    + match goal with |- context [collide_loop w now ls ?ps'] =>
        specialize (IH ps'); destruct (collide_loop w now ls ps')
      end.
      simpl in *. rewrite IH, <- app_assoc. reflexivity.
Qed.

Lemma collide_loop_moves (w : Quokka.t) (now : Z) (ls : list Leaf.t) (ps : list Popup.t) :
  Forall2 (λ a a', Leaf.state a' = Leaf.state a
                   ∨ Leaf.state a = alive ∧ Leaf.state a' = eating)
    ls (fst (collide_loop w now ls ps)).
Proof.
  rewrite collide_loop_items. induction ls as [|lf ls IH]; simpl; constructor; [|exact IH].
  destruct (collideStartEat_cases w lf now) as [Hc|[Hs Hc]]; rewrite Hc; simpl; auto.
Qed.

(** The parts of a turn, in the order the loop body computes them. *)
Lemma turn_parts (zones : list Zone) (gy : Z) (i : nat) (s : Scene) (p : nat) :
  let t := fst (turn cfg math draws zones gy i s p) in
  let now := nowMs_of cfg i in
  ∃ p1 p2,
    respawned t = fst (respawn_loop draws zones now (leaves s) p)
    ∧ walker t = fst (updateQuokka cfg math draws (q s) (dtSec cfg) now gy p1)
    ∧ collided t = fst (collide_loop (walker t) now (respawned t) (popups s))
    ∧ pushed t = snd (collide_loop (walker t) now (respawned t) (popups s))
    ∧ finished t = fst (finish_loop draws now (collided t) p2).
Proof.
  unfold turn, bind.
  destruct (respawn_loop draws zones (nowMs_of cfg i) (leaves s) p) as [l1 p1] eqn:H1.
  destruct (updateQuokka cfg math draws (q s) (dtSec cfg) (nowMs_of cfg i) gy p1)
    as [q' p2] eqn:H2.
  destruct (collide_loop q' (nowMs_of cfg i) l1 (popups s)) as [l2 ps] eqn:H3.
  destruct (finish_loop draws (nowMs_of cfg i) l2 p2) as [l3 p3] eqn:H4.
  simpl. exists p1, p2. rewrite H2, H3, H4. simpl. auto.
Qed.

Lemma step_scene (zones : list Zone) (gy : Z) (i : nat) (s : Scene) (p : nat) :
  let t := fst (turn cfg math draws zones gy i s p) in
  let r := step cfg math draws zones gy i s p in
  fst (fst r) = {| leaves := finished t; q := walker t;
                   popups := updatePopups (pushed t) (nowMs_of cfg i) |}
  ∧ snd (fst r) = {| frame_index := i; shown := fst (fst r) |}.
Proof.
  unfold step, bind.
  destruct (turn cfg math draws zones gy i s p) as [t p1].
  destruct (drawPixelBackground cfg draws gy p1) as [u p2].
  simpl. auto.
Qed.





(** Consecutive entries: the next turn starts from the scene the turn
    before it left. *)
Lemma log_consecutive (zones : list Zone) (gy : Z) (n i : nat) (s : Scene) (p : nat)
    (j : nat) (e e' : Entry) :
  log cfg math draws zones gy n i s p !! j = Some e →
  log cfg math draws zones gy n i s p !! S j = Some e' →
  before e' = after e ∧ index e' = S (index e).
Proof.
  revert i s p j. induction n as [|n IH]; intros i s p j; simpl; [discriminate|].
  destruct j as [|j]; simpl.
  - intros [= <-]. destruct n; simpl; [discriminate|]. intros [= <-]. simpl. auto.
  - apply IH.
Qed.

Lemma log_first (zones : list Zone) (gy : Z) (n i : nat) (s : Scene) (p : nat) (e : Entry) :
  log cfg math draws zones gy n i s p !! 0%nat = Some e → before e = s.
Proof. destruct n as [|n]; [discriminate|]. cbn [log]. intros [= <-]. reflexivity. Qed.



(** *** The walker *)


(** *** The items *)

Lemma on_cycle_cons (a b : LeafState) (tr : list LeafState) :
  moves a b → on_cycle (b :: tr) → on_cycle (a :: b :: tr).
Proof. intros Hm Hc. split; assumption. Qed.

Lemma on_cycle_app_r (l1 l2 : list LeafState) : on_cycle (l1 ++ l2) → on_cycle l2.
Proof.
  induction l1 as [|a l1 IH]; simpl; [auto|]. intros [_ H]. apply IH, H.
Qed.

(** From [dead], the only way to [eating] is through [alive]. *)
Lemma from_dead_to_eating (mid l2 : list LeafState) :
  on_cycle (dead :: mid ++ eating :: l2) → ∃ m2 m3, mid = m2 ++ alive :: m3.
Proof.
  induction mid as [|y mid IH]; simpl.
  - intros [[H|H] _]; discriminate.
  - intros [[-> | ->] Hrest].
    + destruct (IH Hrest) as (m2 & m3 & ->). exists (dead :: m2), m3. reflexivity.
    + exists [], mid. reflexivity.
Qed.

(** From [eating] back to [eating], having left it, the way is through
    [dead] and then [alive]. *)
Lemma from_eating_to_eating (mid l2 : list LeafState) :
  on_cycle (eating :: mid ++ eating :: l2) →
  (∃ x, x ∈ mid ∧ x ≠ eating) →
  ∃ m1 m2 m3, mid = m1 ++ dead :: m2 ++ alive :: m3.
Proof.
  induction mid as [|y mid IH]; simpl.
  - intros _ (x & Hx & _). inversion Hx.
  - intros [[-> | ->] Hrest] (x & Hx & Hne).
    + destruct IH as (m1 & m2 & m3 & ->); [exact Hrest| |].
      * exists x. split; [|exact Hne].
        apply elem_of_cons in Hx as [-> | Hx]; [congruence | exact Hx].
      * exists (eating :: m1), m2, m3. reflexivity.
    + destruct (from_dead_to_eating mid l2 Hrest) as (m2 & m3 & ->).
      exists [], m2, m3. reflexivity.
Qed.

Lemma states_of_Forall2 (R : LeafState → LeafState → Prop) (k : nat) (l l' : list Leaf.t) :
  Forall2 (λ a a', R (Leaf.state a) (Leaf.state a')) l l' →
  (states_of k l = [] ∧ states_of k l' = [])
  ∨ ∃ a a', l !! k = Some a ∧ l' !! k = Some a'
            ∧ states_of k l = [Leaf.state a] ∧ states_of k l' = [Leaf.state a']
            ∧ R (Leaf.state a) (Leaf.state a').
Proof.
  intros HF. unfold states_of.
  pose proof (proj1 (Forall2_lookup _ _ _) HF k) as Hk.
  destruct Hk as [a a' HR|]; [right|left; auto].
  exists a, a'. auto.
Qed.

(** The three loops of a turn move every item along the cycle. *)
Lemma turn_moves (zones : list Zone) (gy : Z) (i : nat) (s : Scene) (p : nat) :
  let t := fst (turn cfg math draws zones gy i s p) in
  Forall2 (λ a a', moves (Leaf.state a) (Leaf.state a')) (leaves s) (respawned t)
  ∧ Forall2 (λ a a', moves (Leaf.state a) (Leaf.state a')) (respawned t) (collided t)
  ∧ Forall2 (λ a a', moves (Leaf.state a) (Leaf.state a')) (collided t) (finished t).
Proof.
  intros t. destruct (turn_parts zones gy i s p) as (p1 & p2 & H1 & _ & H2 & _ & H3).
  fold t in H1, H2, H3.
  split; [|split].
  - rewrite H1. eapply Forall2_impl; [apply respawn_loop_moves|].
    intros a a' [-> | [-> ->]]; [left|right]; reflexivity.
  - rewrite H2. eapply Forall2_impl; [apply collide_loop_moves|].
    intros a a' [-> | [-> ->]]; [left|right]; reflexivity.
  - rewrite H3. eapply Forall2_impl; [apply finish_loop_moves|].
    intros a a' [-> | [-> ->]]; [left|right]; reflexivity.
Qed.

Lemma on_cycle_stage (k : nat) (l l' : list Leaf.t) (tr : list LeafState) :
  Forall2 (λ a a', moves (Leaf.state a) (Leaf.state a')) l l' →
  on_cycle (states_of k l' ++ tr) →
  on_cycle (states_of k l ++ states_of k l' ++ tr).
Proof.
  intros HF Htr.
  destruct (states_of_Forall2 moves k l l' HF)
    as [[He He']|(a & a' & _ & _ & Ha & Ha' & Hm)].
  - rewrite He. rewrite He' in *. exact Htr.
  - rewrite Ha. rewrite Ha' in *. simpl in *. auto.
Qed.

Lemma item_trace_cons (k : nat) (s : Scene) (e : Entry) (es : list Entry) :
  item_trace k s (e :: es)
  = states_of k (leaves s) ++ states_of k (respawned (during e))
    ++ states_of k (collided (during e))
    ++ item_trace k {| leaves := finished (during e); q := q s; popups := popups s |} es.
Proof. unfold item_trace. simpl. rewrite <- !app_assoc. reflexivity. Qed.

Lemma item_trace_leaves (k : nat) (s s' : Scene) (es : list Entry) :
  leaves s = leaves s' → item_trace k s es = item_trace k s' es.
Proof. intros H. unfold item_trace. rewrite H. reflexivity. Qed.

(** The states of an item over any number of turns stay on the cycle. *)
Lemma log_on_cycle (zones : list Zone) (gy : Z) (k n : nat) :
  ∀ i s p, on_cycle (item_trace k s (log cfg math draws zones gy n i s p)).
Proof.
  induction n as [|n IH]; intros i s p.
  - unfold item_trace, states_of. simpl. rewrite app_nil_r.
    destruct (leaves s !! k); simpl; auto.
  - simpl log. rewrite item_trace_cons. simpl during.
    destruct (turn_moves zones gy i s p) as (H1 & H2 & H3).
    destruct (step_scene zones gy i s p) as [Hs _].
    apply on_cycle_stage; [exact H1|].
    apply on_cycle_stage; [exact H2|].
    specialize (IH (S i) (fst (fst (step cfg math draws zones gy i s p)))
                  (snd (step cfg math draws zones gy i s p))).
    erewrite item_trace_leaves in IH; [|rewrite Hs; reflexivity].
    unfold item_trace at 1. simpl leaves.
    apply on_cycle_stage; [exact H3|].
    unfold item_trace in IH. simpl leaves in IH. exact IH.
Qed.

Lemma states_of_length (k : nat) (l : list Leaf.t) :
  (k < length l)%nat → length (states_of k l) = 1%nat.
Proof.
  intros Hk. unfold states_of.
  destruct (lookup_lt_is_Some_2 l k Hk) as [a ->]. reflexivity.
Qed.

(** An item of the scene has one state before the turns and three in each. *)
Lemma item_trace_length (zones : list Zone) (gy : Z) (k n : nat) :
  ∀ i s p, (k < length (leaves s))%nat →
    length (item_trace k s (log cfg math draws zones gy n i s p)) = (1 + 3 * n)%nat.
Proof.
  induction n as [|n IH]; intros i s p Hk.
  - unfold item_trace. simpl. rewrite app_nil_r. apply states_of_length, Hk.
  - simpl log. rewrite item_trace_cons. simpl during.
    destruct (turn_moves zones gy i s p) as (H1 & H2 & H3).
    destruct (step_scene zones gy i s p) as [Hs _].
    apply Forall2_length in H1, H2, H3.
    rewrite !length_app, !states_of_length by lia.
    erewrite item_trace_leaves; [rewrite (IH (S i)
       (fst (fst (step cfg math draws zones gy i s p)))
       (snd (step cfg math draws zones gy i s p)))|].
    + lia.
    + rewrite Hs. simpl. lia.
    + rewrite Hs. reflexivity.
Qed.

Lemma createLeaves_from_length (zones : list Zone) (count : nat) :
  ∀ i p, length (fst (createLeaves_from draws i count zones p)) = count.
Proof.
  induction count as [|count IH]; intros i p; [reflexivity|].
  simpl. unfold bind.
  destruct (pickSpawnPoint draws zones p) as [pt p1].
  specialize (IH (S i) p1).
  destruct (createLeaves_from draws (S i) count zones p1) as [rest p2].
  simpl in *. rewrite IH. reflexivity.
Qed.

Lemma init_leaves (gy : Z) : length (leaves (fst (init cfg draws gy 0%nat))) = 9%nat.
Proof.
  unfold init, bind, createLeaves.
  pose proof (createLeaves_from_length (createSpawnZones cfg gy) 9 0%nat 0%nat) as H.
  destruct (createLeaves_from draws 0 9 (createSpawnZones cfg gy) 0%nat) as [ls p1].
  exact H.
Qed.

(** *** The popups *)

Lemma updatePopups_length (ps : list Popup.t) (now : Z) :
  (length (updatePopups ps now) <= length ps)%nat.
Proof. apply List.filter_length_le. Qed.

Lemma updatePopups_alive (ps : list Popup.t) (now : Z) :
  Forall (λ pp, now - Popup.startMs pp <= Popup.durationMs pp) (updatePopups ps now).
Proof.
  apply List.Forall_forall. intros pp Hin.
  apply List.filter_In in Hin as [_ Hle]. apply Z.leb_le, Hle.
Qed.

Lemma updatePopups_Forall (P : Popup.t → Prop) (ps : list Popup.t) (now : Z) :
  Forall P ps → Forall P (updatePopups ps now).
Proof.
  intros HP. apply List.Forall_forall. intros pp Hin.
  apply List.filter_In in Hin as [Hin _].
  revert pp Hin. apply List.Forall_forall, HP.
Qed.

Lemma step_popups (zones : list Zone) (gy : Z) (i : nat) (s : Scene) (p : nat) :
  Forall (λ pp, Popup.durationMs pp = 1200) (popups s) →
  popups_ok cfg {| index := i; before := s;
                   during := fst (turn cfg math draws zones gy i s p);
                   after := fst (fst (step cfg math draws zones gy i s p)) |}
  ∧ Forall (λ pp, Popup.durationMs pp = 1200)
      (popups (fst (fst (step cfg math draws zones gy i s p)))).
Proof.
  intros Hdur. unfold popups_ok. simpl.
  destruct (step_scene zones gy i s p) as [-> _]. simpl.
  destruct (turn_parts zones gy i s p) as (p1 & p2 & _ & _ & _ & Hpushed & _).
  set (t := fst (turn cfg math draws zones gy i s p)) in *.
  set (now := nowMs_of cfg i) in *.
  assert (Hlen : length (pushed t)
                 = (length (popups s) + collisions (walker t) now (respawned t))%nat).
  { rewrite Hpushed, collide_loop_popups, length_app, length_map. reflexivity. }
  assert (Hall : Forall (λ pp, Popup.durationMs pp = 1200) (pushed t)).
  { rewrite Hpushed, collide_loop_popups. apply Forall_app. split; [exact Hdur|].
    apply List.Forall_forall. intros pp Hin.
    apply List.in_map_iff in Hin as (lf & <- & _). reflexivity. }
  assert (Hkept := updatePopups_Forall _ _ now Hall).
  split; [|exact Hkept].
  split; [exact Hlen|]. split; [reflexivity|]. split.
  - rewrite <- Hlen. apply updatePopups_length.
  - pose proof (updatePopups_alive (pushed t) now) as Halive.
    rewrite List.Forall_forall in *. intros pp Hin.
    specialize (Halive pp Hin). specialize (Hkept pp Hin). rewrite Hkept in Halive. auto.
Qed.

Lemma log_popups (zones : list Zone) (gy : Z) (n : nat) :
  ∀ i s p, Forall (λ pp, Popup.durationMs pp = 1200) (popups s) →
    Forall (popups_ok cfg) (log cfg math draws zones gy n i s p).
Proof.
  induction n as [|n IH]; intros i s p Hdur; simpl; constructor.
  - apply step_popups, Hdur.
  - apply IH. apply step_popups, Hdur.
Qed.

Lemma init_popups (gy : Z) : popups (fst (init cfg draws gy 0%nat)) = [].
Proof.
  unfold init, bind.
  destruct (createLeaves draws (createSpawnZones cfg gy) 0%nat). reflexivity.
Qed.

End RendererFacts.

(** C2.  For every item [k] of a run, the sequence of its states (at the
    start, then after the respawn loop, the collision loop and the finishing
    loop of every turn) only stays or moves one place along
    alive -> eating -> dead -> alive; between two [eating] states of that
    sequence separated by another state there is a [dead] state followed by an
    [alive] one; and [collideStartEat] leaves an item that is not [alive] as it
    is and returns [false]: it returns [true] only for an [alive] item, which
    it makes [eating].  An item of the scene has one state per loop. *)
Theorem item_state_cycle (cfg : Renderer.Config) (math : Renderer.Math) (draws : rng)
    (gy : Z) (k : nat) :
  let s0 := fst (Renderer.init cfg draws gy 0%nat) in
  let tr := Renderer.item_trace k s0 (Renderer.run_log cfg math draws gy) in
  Renderer.on_cycle tr
  ∧ (∀ l1 mid l2,
       tr = l1 ++ Renderer.eating :: mid ++ Renderer.eating :: l2 →
       (∃ x, x ∈ mid ∧ x ≠ Renderer.eating) →
       ∃ m1 m2 m3, mid = m1 ++ Renderer.dead :: m2 ++ Renderer.alive :: m3)
  ∧ (∀ w lf now,
       Renderer.Leaf.state lf ≠ Renderer.alive →
       Renderer.collideStartEat w lf now = (lf, false))
  ∧ (∀ w lf now,
       snd (Renderer.collideStartEat w lf now) = true →
       Renderer.Leaf.state lf = Renderer.alive
       ∧ Renderer.Leaf.state (fst (Renderer.collideStartEat w lf now)) = Renderer.eating)
  ∧ ((k < 9)%nat → length tr = (1 + 3 * Z.to_nat (Renderer.FRAMES cfg))%nat).
Proof.
  intros s0 tr.
  assert (Hcycle : Renderer.on_cycle tr).
  { unfold tr, Renderer.run_log. fold s0. apply log_on_cycle. }
  split; [exact Hcycle|]. split; [|split; [|split]].
  - intros l1 mid l2 Htr Hleft. rewrite Htr in Hcycle.
    apply on_cycle_app_r in Hcycle.
    eapply from_eating_to_eating; eassumption.
  - intros w lf now Hs.
    destruct (collideStartEat_cases w lf now) as [H|[H _]]; [exact H|contradiction].
  - intros w lf now Hstarted.
    destruct (collideStartEat_cases w lf now) as [H|[Hs H]]; rewrite H in *;
      [discriminate|]. split; [exact Hs|reflexivity].
  - intros Hk. unfold tr, Renderer.run_log. fold s0.
    apply item_trace_length. unfold s0. rewrite init_leaves. exact Hk.
Qed.

Lemma item_state_cycle_witness :
  let lf := {| Renderer.Leaf.id := 0; Renderer.Leaf.img := 0;
               Renderer.Leaf.label := "JS"; Renderer.Leaf.state := Renderer.dead;
               Renderer.Leaf.eatStartMs := 0; Renderer.Leaf.eatDurationMs := 250;
               Renderer.Leaf.respawnAt := 2000; Renderer.Leaf.x := 50;
               Renderer.Leaf.y := 150; Renderer.Leaf.r := 14 |} in
  Renderer.collideStartEat (Renderer.createQuokka Renderer.single_frame 116) lf 0
  = (lf, false).
Proof.
  intros lf.
  destruct (item_state_cycle Renderer.single_frame Renderer.sample_math
              Renderer.zero_rng 116 0%nat) as (_ & _ & Hdead & _).
  apply Hdead. simpl. discriminate.
Defined.




(** C7.  In every turn of a run each collision pushes exactly one popup; the
    popup list after the turn is the pushed list without the popups whose
    lifetime has run out, so it is no longer than the list before the turn
    plus the collisions of the turn; every popup still listed has the lifetime
    1200 and started at most 1200 ms before the time of the turn.  The list a
    turn starts from is the list the turn before it left, the first being
    empty. *)
Theorem popup_lifecycle (cfg : Renderer.Config) (math : Renderer.Math) (draws : rng)
    (gy : Z) :
  let es := Renderer.run_log cfg math draws gy in
  Forall (Renderer.popups_ok cfg) es
  ∧ (∀ j e e', es !! j = Some e → es !! S j = Some e' →
       Renderer.before e' = Renderer.after e)
  ∧ (∀ e, es !! 0%nat = Some e → Renderer.popups (Renderer.before e) = []).
Proof.
  intros es. unfold es, Renderer.run_log. split; [|split].
  - apply log_popups. rewrite init_popups. constructor.
  - intros j e e' He He'. eapply log_consecutive; eassumption.
  - intros e He. rewrite (log_first _ _ _ _ _ _ _ _ _ _ He). apply init_popups.
Qed.

Lemma popup_lifecycle_witness :
  Forall (Renderer.popups_ok Renderer.single_frame)
    (Renderer.run_log Renderer.single_frame Renderer.sample_math Renderer.zero_rng 116).
Proof.
  exact (proj1 (popup_lifecycle Renderer.single_frame Renderer.sample_math
                  Renderer.zero_rng 116)).
Defined.


(** ** The README syncer *)

Section TextFacts.

Lemma append_cons (x : ascii) (a b : string) : String x a +:+ b = String x (a +:+ b).
Proof. reflexivity. Qed.

Lemma append_nil (b : string) : EmptyString +:+ b = b.
Proof. reflexivity. Qed.

Lemma append_assoc (a b c : string) : (a +:+ b) +:+ c = a +:+ (b +:+ c).
Proof.
  induction a as [|x a IH]; [reflexivity|].
  rewrite !append_cons, IH. reflexivity.
Qed.

Lemma strip_prefix_spec (p s rest : string) :
  strip_prefix p s = Some rest → s = p +:+ rest.
Proof.
  revert s. induction p as [|a p IH]; intros s; simpl.
  - intros [= ->]. reflexivity.
  - destruct s as [|b s]; [discriminate|].
    destruct (Ascii.eqb_spec a b) as [->|_]; [|discriminate].
    intros H. rewrite (IH s H). reflexivity.
Qed.

Lemma split_at_spec (needle hay before after : string) :
  split_at needle hay = Some (before, after) → hay = before +:+ needle +:+ after.
Proof.
  revert before. induction hay as [|c hay IH]; intros before; simpl.
  - destruct (strip_prefix needle EmptyString) as [rest|] eqn:Hp; [|discriminate].
    intros [= <- <-]. apply strip_prefix_spec in Hp. exact Hp.
  - destruct (strip_prefix needle (String c hay)) as [rest|] eqn:Hp.
    + intros [= <- <-]. apply strip_prefix_spec in Hp. exact Hp.
    + destruct (split_at needle hay) as [[b a]|]; [|discriminate].
      intros [= <- <-]. rewrite append_cons, <- (IH b eq_refl). reflexivity.
Qed.

Import Syncer.

Lemma find_section_spec (readme before between after : string) :
  find_section readme = Some (before, between, after) →
  readme = before +:+ startMarker +:+ between +:+ endMarker +:+ after.
Proof.
  revert before. induction readme as [|c readme IH]; intros before.
  - unfold find_section.
    destruct (strip_prefix startMarker EmptyString) as [rest|] eqn:Hp; [|discriminate].
    apply strip_prefix_spec in Hp. discriminate.
  - change (find_section (String c readme)) with
      (match
         match strip_prefix startMarker (String c readme) with
         | Some rest => split_at endMarker rest
         | None => None
         end
       with
       | Some (between, after) => Some (EmptyString, between, after)
       | None =>
           match find_section readme with
           | Some (b, m, a) => Some (String c b, m, a)
           | None => None
           end
       end).
    destruct (strip_prefix startMarker (String c readme)) as [rest|] eqn:Hp.
    + destruct (split_at endMarker rest) as [[m a]|] eqn:Hs.
      * intros [= <- <- <-]. apply strip_prefix_spec in Hp.
        apply split_at_spec in Hs. rewrite Hp, Hs. reflexivity.
      * destruct (find_section readme) as [[[b m] a]|]; [|discriminate].
        intros [= <- <- <-]. rewrite append_cons, <- (IH b eq_refl). reflexivity.
    + destruct (find_section readme) as [[[b m] a]|]; [|discriminate].
      intros [= <- <- <-]. rewrite append_cons, <- (IH b eq_refl). reflexivity.
Qed.

Lemma GetSubstitution_plain (matched before after : string) (c : ascii) (rest : string) :
  Ascii.eqb c "$" = false →
  GetSubstitution matched before after (String c rest)
  = String c (GetSubstitution matched before after rest).
Proof. intros H. cbn [GetSubstitution]. rewrite H. reflexivity. Qed.

Lemma GetSubstitution_dollar (matched before after : string) (d : ascii) (rest : string) :
  GetSubstitution matched before after (String "$" (String d rest))
  = if Ascii.eqb d "$" then String "$" (GetSubstitution matched before after rest)
    else if Ascii.eqb d "&" then matched +:+ GetSubstitution matched before after rest
    else if Ascii.eqb d "`" then before +:+ GetSubstitution matched before after rest
    else if Ascii.eqb d "'" then after +:+ GetSubstitution matched before after rest
    else String "$" (GetSubstitution matched before after (String d rest)).
Proof. reflexivity. Qed.

(** A dollar sign in front of a line end is copied: the expansion of a
    replacement can be done up to a line end and continued behind it. *)
Lemma GetSubstitution_line (matched before after tail : string) (n : nat) :
  ∀ body, (String.length body <= n)%nat →
    ∃ expanded,
      GetSubstitution matched before after (body +:+ String newline tail)
      = expanded +:+ String newline (GetSubstitution matched before after tail).
Proof.
  assert (Hnil : GetSubstitution matched before after (EmptyString +:+ String newline tail)
                 = EmptyString +:+ String newline
                                     (GetSubstitution matched before after tail)).
  { rewrite !append_nil. apply GetSubstitution_plain. reflexivity. }
  induction n as [|n IH]; intros body Hlen.
  - destruct body; [|simpl in Hlen; lia]. exists EmptyString. exact Hnil.
  - destruct body as [|c body]; [exists EmptyString; exact Hnil|].
    simpl in Hlen. rewrite append_cons.
    destruct (Ascii.eqb_spec c "$") as [->|Hne].
    + destruct body as [|d body].
      * exists (String "$" EmptyString).
        rewrite append_nil, GetSubstitution_dollar, !append_cons, append_nil.
        cbn [Ascii.eqb newline ascii_of_nat ascii_of_pos Pos.of_succ_nat Pos.succ
             shift zero one Bool.eqb].
        rewrite GetSubstitution_plain by reflexivity. reflexivity.
      * simpl in Hlen.
        destruct (IH body ltac:(lia)) as [e2 He2].
        destruct (IH (String d body) ltac:(simpl; lia)) as [e1 He1].
        rewrite append_cons in He1 |- *. rewrite GetSubstitution_dollar.
        destruct (Ascii.eqb d "$");
          [exists (String "$" e2); rewrite He2; reflexivity|].
        destruct (Ascii.eqb d "&");
          [exists (matched +:+ e2); rewrite He2, append_assoc; reflexivity|].
        destruct (Ascii.eqb d "`");
          [exists (before +:+ e2); rewrite He2, append_assoc; reflexivity|].
        destruct (Ascii.eqb d "'");
          [exists (after +:+ e2); rewrite He2, append_assoc; reflexivity|].
        exists (String "$" e1). rewrite He1. reflexivity.
    + destruct (IH body ltac:(lia)) as [e He].
      exists (String c e).
      rewrite GetSubstitution_plain by (apply Ascii.eqb_neq, Hne).
      rewrite He. reflexivity.
Qed.

(** The new section keeps its two marker lines through the expansion. *)
Lemma GetSubstitution_newSection (toLocaleDateString : string → string)
    (matched before after : string) (posts : list Post) :
  ∃ body,
    GetSubstitution matched before after (newSection toLocaleDateString posts)
    = startMarker +:+ nl +:+ body +:+ nl +:+ endMarker.
Proof.
  unfold newSection.
  destruct (GetSubstitution_line matched before after endMarker _
              (join nl (List.map (post_line toLocaleDateString) posts)) (le_n _))
    as [body Hbody].
  exists body.
  change (nl +:+ endMarker) with (String newline endMarker).
  change (GetSubstitution matched before after endMarker) with endMarker in Hbody.
  set (rest := join nl (List.map (post_line toLocaleDateString) posts)
               +:+ String newline endMarker) in *.
  change (GetSubstitution matched before after (startMarker +:+ nl +:+ rest))
    with (startMarker +:+ nl +:+ GetSubstitution matched before after rest).
  rewrite Hbody. reflexivity.
Qed.

End TextFacts.

Section SyncerFacts.

Import Syncer.

Context (api : option json → option json)
        (decode : json → option string)
        (date_ms : string → option Z)
        (toLocaleDateString : string → string).


Lemma prop_throws (v : json) (k : string) : prop v k = Throw ↔ v = JNull.
Proof. destruct v; simpl; split; intros H; try discriminate; reflexivity. Qed.

(** The filter throws exactly on a listing with a [null] entry. *)
Lemma filter_dirs_throws (items : list json) :
  filter_dirs items = Throw ↔ JNull ∈ items.
Proof.
  induction items as [|item items IH]; simpl.
  - split; [discriminate|]. intros H. inversion H.
  - rewrite elem_of_cons.
    destruct (prop item "type") as [ty|] eqn:Hty.
    + assert (Hne : JNull ≠ item).
      { intros <-. simpl in Hty. discriminate. }
      destruct (filter_dirs items) as [dirs|].
      * split.
        -- destruct ty as [[]|]; try discriminate.
           destruct (String.eqb s "dir"); discriminate.
        -- intros [H|H]; [contradiction|]. apply IH in H. discriminate.
      * split; [intros _; right; apply IH; reflexivity | reflexivity].
    + apply prop_throws in Hty. subst item. split; auto.
Qed.







(** *** Sorting by date *)

Lemma insert_by_perm {A} (cmp : A → A → Z) (p : A) (l : list A) :
  insert_by cmp p l ≡ₚ p :: l.
Proof.
  induction l as [|a l IH]; simpl; [reflexivity|].
  destruct (0 <? cmp a p); [reflexivity|].
  rewrite IH. apply Permutation_swap.
Qed.

Lemma sort_by_perm {A} (cmp : A → A → Z) (l : list A) : sort_by cmp l ≡ₚ l.
Proof.
  unfold sort_by.
  assert (H : ∀ acc, foldl (λ sorted p, insert_by cmp p sorted) acc l ≡ₚ acc ++ l).
  { induction l as [|a l IH]; intros acc; simpl.
    - rewrite app_nil_r. reflexivity.
    - rewrite IH, insert_by_perm. apply Permutation_middle. }
  apply (H []).
Qed.





End SyncerFacts.







(** C8.  A run with no post writes nothing.  A run that writes had a
    document with both markers and at least one post; what it writes is the
    document itself when the pattern finds no section, and otherwise the
    document with the first section replaced: the text before the start
    marker and the text after the end marker are kept as they are, and
    between them stand the two markers with the expanded list. *)
Theorem readme_frame (api : option Syncer.json → option Syncer.json)
    (decode : Syncer.json → option string) (date_ms : string → option Z)
    (toLocaleDateString : string → string) (token file : option string) :
  let r := Syncer.main api decode date_ms toLocaleDateString token file in
  (Syncer.getLatestPosts api decode date_ms = Syncer.Ok [] →
   r = (Syncer.Exit0, None) ∨ r = (Syncer.Exit1, None))
  ∧ (snd r = None → Syncer.file_after file (snd r) = file)
  ∧ (∀ updated, snd r = Some updated →
       ∃ readme posts,
         file = Some readme
         ∧ Syncer.getLatestPosts api decode date_ms = Syncer.Ok posts ∧ posts ≠ []
         ∧ includes readme Syncer.startMarker = true
         ∧ includes readme Syncer.endMarker = true
         ∧ (Syncer.find_section readme = None ∧ updated = readme
            ∨ ∃ before between after body,
                Syncer.find_section readme = Some (before, between, after)
                ∧ readme = before +:+ Syncer.startMarker +:+ between
                           +:+ Syncer.endMarker +:+ after
                ∧ updated = before +:+ (Syncer.startMarker +:+ nl +:+ body +:+ nl
                                        +:+ Syncer.endMarker) +:+ after)).
Proof.
  intros r. unfold r, Syncer.main. split; [|split].
  - intros ->. destruct (Syncer.falsy token); auto.
  - intros ->. reflexivity.
  - intros updated.
    destruct (Syncer.falsy token); [discriminate|].
    destruct (Syncer.getLatestPosts api decode date_ms) as [[|p posts]|];
      try discriminate.
    unfold Syncer.updateReadme.
    destruct file as [readme|]; [|discriminate].
    destruct (includes readme Syncer.startMarker) eqn:Hs; [|discriminate].
    destruct (includes readme Syncer.endMarker) eqn:He; [|discriminate].
    simpl. intros [= <-].
    exists readme, (p :: posts).
    split; [reflexivity|]. split; [reflexivity|]. split; [discriminate|].
    split; [exact Hs|]. split; [exact He|].
    unfold Syncer.replace_section.
    destruct (Syncer.find_section readme) as [[[before between] after]|] eqn:Hfind.
    + right.
      destruct (GetSubstitution_newSection toLocaleDateString
                  (Syncer.startMarker +:+ between +:+ Syncer.endMarker)
                  before after (p :: posts)) as [body Hbody].
      exists before, between, after, body.
      split; [reflexivity|]. split; [apply find_section_spec, Hfind|].
      rewrite Hbody. reflexivity.
    + left. auto.
Qed.

Lemma readme_frame_witness :
  ∃ updated readme,
    snd (Syncer.main Syncer.example_api Syncer.example_decode Syncer.example_date_ms
           Syncer.example_toLocaleDateString (Some "token") (Some Syncer.example_readme))
    = Some updated
    ∧ Some Syncer.example_readme = Some readme
    ∧ includes readme Syncer.startMarker = true.
Proof.
  eexists.
  destruct (proj2 (proj2 (readme_frame Syncer.example_api Syncer.example_decode
                            Syncer.example_date_ms Syncer.example_toLocaleDateString
                            (Some "token") (Some Syncer.example_readme)))
              _ ltac:(vm_compute; reflexivity))
    as (readme & posts & Hfile & _ & _ & Hs & _).
  exists readme. split; [vm_compute; reflexivity|]. split; [exact Hfile|exact Hs].
Defined.

(** * Further properties *)

(** ** The renderer: random numbers, items and walker *)

Section RendererMore.

Import Renderer Facts.

Context (cfg : Config) (math : Math) (draws : rng).

Lemma rand_value (a b : Q) (p : nat) :
  rand draws a b p = ((a + dval (draws p) * (b - a))%Q, S p).
Proof. reflexivity. Qed.

Lemma rand_between (a b : Q) (p : nat) :
  (Qmin a b <= fst (rand draws a b p))%Q ∧ (fst (rand draws a b p) <= Qmax a b)%Q.
Proof.
  rewrite rand_value. simpl.
  destruct (draw_range (draws p)) as [H0 H1].
  destruct (Qlt_le_dec a b) as [Hab|Hba].
  - split; [apply Q.min_le_iff; left | apply Q.max_le_iff; right]; nra.
  - split; [apply Q.min_le_iff; right | apply Q.max_le_iff; left]; nra.
Qed.

Lemma randInt_bounds (min max : Q) (lo hi : Z) (p : nat) :
  (min == inject_Z lo)%Q → (max == inject_Z hi)%Q → lo <= hi →
  lo <= fst (randInt draws min max p) <= hi.
Proof.
  intros Hmin Hmax Hle.
  change (fst (randInt draws min max p))
    with (Qfloor (min + dval (draws p) * (max + 1 - min))).
  destruct (draw_range (draws p)) as [H0 H1].
  rewrite Zle_Qle in Hle.
  set (v := (min + dval (draws p) * (max + 1 - min))%Q).
  assert (Hlo : (inject_Z lo <= v)%Q) by (unfold v; nra).
  assert (Hhi : (v < inject_Z (hi + 1))%Q).
  { rewrite inject_Z_plus. unfold v. change (inject_Z 1) with 1%Q. nra. }
  split.
  - rewrite <- (Qfloor_Z lo). apply Qfloor_resp_le, Hlo.
  - assert (Hfl := Qfloor_le v).
    assert (Hlt : Qfloor v < hi + 1).
    { rewrite Zlt_Qlt. eapply Qle_lt_trans; eassumption. }
    lia.
Qed.

Lemma zone_at_in (zones : list Zone) (i : Z) :
  0 <= i < Z.of_nat (length zones) → zone_at zones i ∈ zones.
Proof.
  intros Hi. unfold zone_at. apply list_elem_of_In, nth_In. lia.
Qed.

(** A spawn point lies in one of the zones, whichever way round the
    bounds of the zone are. *)
Lemma pickSpawnPoint_in_zone (zones : list Zone) (p : nat) :
  zones ≠ [] →
  ∃ z, z ∈ zones
       ∧ in_zone z (fst (fst (pickSpawnPoint draws zones p)))
                   (snd (fst (pickSpawnPoint draws zones p))).
Proof.
  intros Hne. unfold pickSpawnPoint, bind.
  destruct (randInt draws 0 (inject_Z (Z.of_nat (length zones)) - 1) p) as [i p1] eqn:Hi.
  assert (Hrange : 0 <= i <= Z.of_nat (length zones) - 1).
  { replace i with (fst (randInt draws 0 (inject_Z (Z.of_nat (length zones)) - 1) p))
      by (rewrite Hi; reflexivity).
    apply randInt_bounds.
    - reflexivity.
    - unfold Zminus. rewrite inject_Z_plus. reflexivity.
    - destruct zones; [contradiction|]. simpl. lia. }
  set (z := zone_at zones i).
  rewrite (rand_value (x1 z) (x2 z) p1).
  rewrite (rand_value (y1 z) (y2 z) (S p1)). simpl.
  exists z. split; [apply zone_at_in; lia|].
  pose proof (rand_between (x1 z) (x2 z) p1) as Hx.
  pose proof (rand_between (y1 z) (y2 z) (S p1)) as Hy.
  rewrite rand_value in Hx, Hy. simpl in Hx, Hy.
  unfold in_zone. tauto.
Qed.

Lemma createSpawnZones_nonempty (gy : Z) : createSpawnZones cfg gy ≠ [].
Proof. discriminate. Qed.

Lemma Forall2_step {A B} (P : A → B → Prop) (R : B → B → Prop) (ks : list A)
    (l l' : list B) :
  (∀ k a a', P k a → R a a' → P k a') →
  Forall2 P ks l → Forall2 R l l' → Forall2 P ks l'.
Proof.
  intros HPR HP. revert l'. induction HP as [|k a ks l Hka HP IH]; intros l' HR.
  - inversion HR. constructor.
  - inversion HR as [|a0 a' l0 l'' Haa' HR' Heq1 Heq2]; subst.
    constructor; [eapply HPR; eassumption | apply IH, HR'].
Qed.

Lemma Forall_step {B} (P : B → Prop) (R : B → B → Prop) (l l' : list B) :
  (∀ a a', P a → R a a' → P a') → Forall P l → Forall2 R l l' → Forall P l'.
Proof.
  intros HPR HP HR. induction HR as [|a a' l l' Haa' HR IH]; [constructor|].
  apply Forall_cons in HP as [Ha HP]. constructor; [eapply HPR; eassumption | apply IH, HP].
Qed.

Lemma item_at_same (k : nat) (a a' : Leaf.t) : item_at k a → same_item a a' → item_at k a'.
Proof.
  unfold item_at, same_item.
  intros (H1 & H2 & H3 & H4 & H5) (E1 & E2 & E3 & E4 & E5).
  rewrite E1, E2, E3, E4, E5. auto.
Qed.

Lemma kept_refl (zones : list Zone) (a : Leaf.t) : kept zones a a.
Proof. unfold kept, same_item. auto 10. Qed.

Lemma respawn_loop_kept (zones : list Zone) (now : Z) (ls : list Leaf.t) (p : nat) :
  zones ≠ [] →
  Forall2 (kept zones) ls (fst (respawn_loop draws zones now ls p)).
Proof.
  intros Hne. eapply Forall2_impl; [apply for_each_Forall2|].
  intros a a' [p1 ->]. cbv beta.
  destruct (LeafState_eqb (Leaf.state a) dead && (now >=? Leaf.respawnAt a));
    [|apply kept_refl].
  destruct (pickSpawnPoint_in_zone zones p1 Hne) as (z & Hz & Hin).
  unfold respawnLeaf, bind.
  destruct (pickSpawnPoint draws zones p1) as [pt p2]. simpl in *.
  split; [unfold same_item; simpl; auto|].
  intros _. exists z. split; [exact Hz|exact Hin].
Qed.

Lemma collide_loop_kept (zones : list Zone) (w : Quokka.t) (now : Z) (ls : list Leaf.t)
    (ps : list Popup.t) :
  Forall2 (kept zones) ls (fst (collide_loop w now ls ps)).
Proof.
  rewrite collide_loop_items. induction ls as [|lf ls IH]; simpl; constructor; [|exact IH].
  destruct (collideStartEat_cases w lf now) as [Hc|[_ Hc]]; rewrite Hc; simpl;
    [apply kept_refl|].
  split; [unfold same_item; simpl; auto|]. intros Hin. exact Hin.
Qed.

Lemma finish_loop_kept (zones : list Zone) (now : Z) (ls : list Leaf.t) (p : nat) :
  Forall2 (kept zones) ls (fst (finish_loop draws now ls p)).
Proof.
  eapply Forall2_impl; [apply for_each_Forall2|].
  intros a a' [p1 ->]. cbv beta.
  destruct (LeafState_eqb (Leaf.state a) eating
            && (now - Leaf.eatStartMs a >=? Leaf.eatDurationMs a)); [|apply kept_refl].
  unfold finishEatLeaf, bind. destruct (randInt draws 1400 3600 p1) as [d p2]. simpl.
  split; [unfold same_item; simpl; auto|]. intros Hin. exact Hin.
Qed.

Lemma updateQuokka_constants (w : Quokka.t) (dt : Q) (now gy : Z) (p : nat) :
  Quokka.r (fst (updateQuokka cfg math draws w dt now gy p)) = Quokka.r w
  ∧ Quokka.speed (fst (updateQuokka cfg math draws w dt now gy p)) = Quokka.speed w.
Proof.
  unfold updateQuokka, bind.
  destruct (now >=? Quokka.nextDirAt w); simpl; auto.
Qed.

Lemma kept_item_at (zones : list Zone) (ks : list nat) (l l' : list Leaf.t) :
  Forall2 item_at ks l → Forall2 (kept zones) l l' → Forall2 item_at ks l'.
Proof.
  apply Forall2_step. intros k a a' Ha [Hs _]. eapply item_at_same; eassumption.
Qed.

Lemma kept_in_zone (zones : list Zone) (l l' : list Leaf.t) :
  Forall (in_some_zone zones) l → Forall2 (kept zones) l l' →
  Forall (in_some_zone zones) l'.
Proof. apply Forall_step. intros a a' Ha [_ Hz]. auto. Qed.

Lemma item_at_label (k : nat) (lf : Leaf.t) :
  (k < 9)%nat → item_at k lf → Leaf.label lf ∈ leaf_keys.
Proof.
  intros Hk (_ & _ & -> & _). apply list_elem_of_In, nth_In.
  change (length leaf_keys) with 5%nat. apply Nat.mod_upper_bound. discriminate.
Qed.

Lemma items_labels (l : list Leaf.t) :
  Forall2 item_at (seq 0 9) l → Forall (λ lf, Leaf.label lf ∈ leaf_keys) l.
Proof.
  intros H. apply Forall_lookup. intros k lf Hk.
  destruct (Forall2_lookup_r _ _ _ _ _ H Hk) as (n & Hn & Hat).
  apply lookup_seq in Hn as [-> Hlt]. simpl in Hat.
  eapply item_at_label; eassumption.
Qed.

(** One turn keeps what [scene_inv] says, at each of its stages. *)
Lemma turn_inv (gy : Z) (i : nat) (s : Scene) (p : nat) :
  let zones := createSpawnZones cfg gy in
  let t := fst (turn cfg math draws zones gy i s p) in
  scene_inv zones s →
  Forall2 item_at (seq 0 9) (respawned t)
  ∧ Forall2 item_at (seq 0 9) (collided t)
  ∧ Quokka.r (walker t) = 18%Q
  ∧ scene_inv zones {| leaves := finished t; q := walker t;
                       popups := updatePopups (pushed t) (nowMs_of cfg i) |}.
Proof.
  intros zones t (Hitems & Hzones & Hr & Hspeed & Htexts).
  destruct (turn_parts cfg math draws zones gy i s p)
    as (p1 & p2 & H1 & Hw & H2 & Hps & H3).
  fold t in H1, Hw, H2, Hps, H3.
  pose proof (respawn_loop_kept zones (nowMs_of cfg i) (leaves s) p
                (createSpawnZones_nonempty gy)) as K1.
  rewrite <- H1 in K1.
  pose proof (collide_loop_kept zones (walker t) (nowMs_of cfg i) (respawned t) (popups s))
    as K2.
  rewrite <- H2 in K2.
  pose proof (finish_loop_kept zones (nowMs_of cfg i) (collided t) p2) as K3.
  rewrite <- H3 in K3.
  destruct (updateQuokka_constants (q s) (dtSec cfg) (nowMs_of cfg i) gy p1) as [Er Es].
  rewrite <- Hw in Er, Es.
  assert (I1 := kept_item_at zones _ _ _ Hitems K1).
  assert (I2 := kept_item_at zones _ _ _ I1 K2).
  assert (I3 := kept_item_at zones _ _ _ I2 K3).
  split; [exact I1|]. split; [exact I2|]. split; [congruence|].
  unfold scene_inv. simpl.
  split; [exact I3|]. split.
  { eapply kept_in_zone; [|exact K3]. eapply kept_in_zone; [|exact K2].
    eapply kept_in_zone; [|exact K1]. exact Hzones. }
  split; [congruence|]. split; [congruence|].
  apply updatePopups_Forall. rewrite Hps, collide_loop_popups.
  apply Forall_app. split; [exact Htexts|].
  apply List.Forall_forall. intros pp Hin.
  apply List.in_map_iff in Hin as (lf & <- & Hlf).
  apply List.filter_In in Hlf as [Hlf _].
  exists (Leaf.label lf). split; [|reflexivity].
  pose proof (items_labels _ I1) as Hlabels.
  rewrite List.Forall_forall in Hlabels. apply Hlabels, Hlf.
Qed.

Lemma step_inv (gy : Z) (i : nat) (s : Scene) (p : nat) :
  let zones := createSpawnZones cfg gy in
  scene_inv zones s → scene_inv zones (fst (fst (step cfg math draws zones gy i s p))).
Proof.
  intros zones Hs.
  destruct (step_scene cfg math draws zones gy i s p) as [-> _].
  apply (turn_inv gy i s p Hs).
Qed.

Lemma createLeaves_from_inv (zones : list Zone) (count : nat) :
  zones ≠ [] →
  ∀ i p, Forall2 item_at (seq i count) (fst (createLeaves_from draws i count zones p))
         ∧ Forall (in_some_zone zones) (fst (createLeaves_from draws i count zones p)).
Proof.
  intros Hne. induction count as [|count IH]; intros i p.
  - split; constructor.
  - simpl. unfold bind.
    destruct (pickSpawnPoint_in_zone zones p Hne) as (z & Hz & Hin).
    destruct (pickSpawnPoint draws zones p) as [pt p1].
    destruct (IH (S i) p1) as [IH1 IH2].
    destruct (createLeaves_from draws (S i) count zones p1) as [rest p2].
    simpl in *. split; constructor; auto.
    + unfold item_at. simpl. auto.
    + exists z. split; [exact Hz|exact Hin].
Qed.

Lemma init_inv (gy : Z) :
  scene_inv (createSpawnZones cfg gy) (fst (init cfg draws gy 0%nat)).
Proof.
  unfold init, bind, createLeaves.
  destruct (createLeaves_from_inv (createSpawnZones cfg gy) 9
              (createSpawnZones_nonempty gy) 0%nat 0%nat) as [H1 H2].
  destruct (createLeaves_from draws 0 9 (createSpawnZones cfg gy) 0%nat) as [ls p1].
  simpl in *. unfold scene_inv. simpl. repeat split; auto.
Qed.

(** A property that every turn from a scene of a kept kind has, and that
    keeps the kind, holds of every entry of the record. *)
Lemma log_invariant (Inv : Scene → Prop) (P : Entry → Prop) (zones : list Zone) (gy : Z) :
  (∀ i s p, Inv s →
     P {| index := i; before := s;
          during := fst (turn cfg math draws zones gy i s p);
          after := fst (fst (step cfg math draws zones gy i s p)) |}
     ∧ Inv (fst (fst (step cfg math draws zones gy i s p)))) →
  ∀ n i s p, Inv s → Forall P (log cfg math draws zones gy n i s p).
Proof.
  intros Hstep n. induction n as [|n IH]; intros i s p Hs; simpl; constructor.
  - apply Hstep, Hs.
  - apply IH. apply Hstep, Hs.
Qed.

(** What the record of a run keeps. *)
Lemma run_log_inv (gy : Z) :
  let zones := createSpawnZones cfg gy in
  Forall (λ e, scene_inv zones (before e) ∧ scene_inv zones (after e)
               ∧ Forall2 item_at (seq 0 9) (respawned (during e))
               ∧ Forall2 item_at (seq 0 9) (collided (during e))
               ∧ Quokka.r (walker (during e)) = 18%Q)
    (run_log cfg math draws gy).
Proof.
  intros zones. unfold run_log.
  apply (log_invariant (scene_inv zones)); [|apply init_inv].
  intros i s p Hs. simpl.
  destruct (turn_inv gy i s p Hs) as (I1 & I2 & Hr & _).
  pose proof (step_inv gy i s p Hs) as Hafter.
  auto 10.
Qed.

Lemma turn_item_times (gy : Z) (i : nat) (s : Scene) (p : nat) (k : nat) :
  let zones := createSpawnZones cfg gy in
  scene_inv zones s →
  item_times cfg k {| index := i; before := s;
                      during := fst (turn cfg math draws zones gy i s p);
                      after := fst (fst (step cfg math draws zones gy i s p)) |}.
Proof.
  intros zones Hs. unfold item_times. simpl.
  set (t := fst (turn cfg math draws zones gy i s p)).
  set (now := nowMs_of cfg i).
  intros a0 a1 a2 a3 H0 H1 H2 H3.
  destruct (turn_inv gy i s p Hs) as (_ & I2 & _ & _). fold zones t in I2.
  destruct (turn_parts cfg math draws zones gy i s p)
    as (p1 & p2 & E1 & _ & E2 & _ & E3).
  fold t now in E1, E2, E3.
  (* the respawn loop *)
  pose proof (for_each_Forall2
                (λ lf, if LeafState_eqb (Leaf.state lf) dead && (now >=? Leaf.respawnAt lf)
                       then respawnLeaf draws lf zones else ret lf) (leaves s) p) as F1.
  change (for_each _ (leaves s) p) with (respawn_loop draws zones now (leaves s) p) in F1.
  rewrite <- E1 in F1.
  destruct (Forall2_lookup_lr _ _ _ _ _ _ F1 H0 H1) as [q1 Ha1].
  (* the collision loop *)
  assert (Ha2 : a2 = fst (collideStartEat (walker t) a1 now)).
  { rewrite E2, collide_loop_items in H2.
    change (List.map ?f ?l) with (f <$> l) in H2.
    rewrite list_lookup_fmap, H1 in H2. simpl in H2. congruence. }
  (* the finishing loop *)
  pose proof (for_each_Forall2
                (λ lf, if LeafState_eqb (Leaf.state lf) eating
                          && (now - Leaf.eatStartMs lf >=? Leaf.eatDurationMs lf)
                       then finishEatLeaf draws lf now else ret lf) (collided t) p2) as F3.
  change (for_each _ (collided t) p2) with (finish_loop draws now (collided t) p2) in F3.
  rewrite <- E3 in F3.
  destruct (Forall2_lookup_lr _ _ _ _ _ _ F3 H2 H3) as [q3 Ha3].
  assert (Hdur : Leaf.eatDurationMs a2 = 250).
  { destruct (Forall2_lookup_r _ _ _ _ _ I2 H2) as (n & _ & Hat).
    destruct Hat as (_ & _ & _ & Hd & _). exact Hd. }
  split; [|split].
  - intros Hdead Halive. rewrite Ha1, Hdead in Halive. simpl in Halive.
    destruct (Z.geb_spec now (Leaf.respawnAt a0)) as [Hge|Hlt]; [lia|].
    simpl in Halive. congruence.
  - intros Halive Heating.
    destruct (collideStartEat_cases (walker t) a1 now) as [Hc|[_ Hc]];
      rewrite Hc in Ha2; simpl in Ha2; subst a2; [congruence|].
    split; [reflexivity|].
    rewrite Ha3. simpl. simpl in Hdur. rewrite Hdur.
    replace (now - now) with 0 by lia. reflexivity.
  - intros Heating Hdead. rewrite Ha3, Heating, Hdur in Hdead |- *. simpl in Hdead |- *.
    destruct (Z.geb_spec (now - Leaf.eatStartMs a2) 250) as [Hge|Hlt];
      [|simpl in Hdead; congruence].
    split; [lia|]. unfold finishEatLeaf, bind.
    pose proof (randInt_bounds 1400 3600 1400 3600 q3 ltac:(reflexivity)
                  ltac:(reflexivity) ltac:(lia)) as Hd.
    destruct (randInt draws 1400 3600 q3) as [d q4]. simpl in *. lia.
Qed.

End RendererMore.



(** X2.  [rand(min, max)] makes one draw and returns a number between its
    two arguments, whichever of them is the smaller. *)
Theorem rand_in_range (draws : rng) (a b : Q) (p : nat) :
  ∃ v, Renderer.rand draws a b p = (v, S p) ∧ (Qmin a b <= v)%Q ∧ (v <= Qmax a b)%Q.
Proof.
  eexists. split; [reflexivity|]. apply (rand_between draws a b p).
Qed.

(** X3.  In every scene of a run, before and after every turn, each of the
    items lies inside the rectangle of one of the four spawn zones. *)
Theorem items_in_spawn_zones (cfg : Renderer.Config) (math : Renderer.Math) (draws : rng)
    (gy : Z) :
  Forall (λ e, Forall (Facts.in_some_zone (Renderer.createSpawnZones cfg gy))
                 (Renderer.leaves (Renderer.before e))
               ∧ Forall (Facts.in_some_zone (Renderer.createSpawnZones cfg gy))
                   (Renderer.leaves (Renderer.after e)))
    (Renderer.run_log cfg math draws gy).
Proof.
  eapply Forall_impl; [apply run_log_inv|].
  intros e ((_ & Hb & _) & (_ & Ha & _) & _). auto.
Qed.

(** X4.  Every scene of a run has nine items; the item at place [k] has
    the id [k], the image and the key [k mod 5] of the asset list, the
    radius 14 and the eating time 250 ms, whatever has happened to it. *)
Theorem items_keep_identity (cfg : Renderer.Config) (math : Renderer.Math) (draws : rng)
    (gy : Z) :
  Forall (λ e, length (Renderer.leaves (Renderer.after e)) = 9%nat
               ∧ ∀ k lf, Renderer.leaves (Renderer.after e) !! k = Some lf →
                         Renderer.Leaf.id lf = k
                         ∧ Renderer.Leaf.img lf = (k mod 5)%nat
                         ∧ Renderer.Leaf.label lf
                           = nth (k mod 5) ["JS"; "REACT"; "TS"; "NEXT"; "AI"] EmptyString
                         ∧ Renderer.Leaf.eatDurationMs lf = 250
                         ∧ Renderer.Leaf.r lf = 14%Q)
    (Renderer.run_log cfg math draws gy).
Proof.
  eapply Forall_impl; [apply run_log_inv|].
  intros e (_ & (Ha & _) & _). split.
  - apply Forall2_length in Ha. rewrite <- Ha. reflexivity.
  - intros k lf Hk.
    destruct (Forall2_lookup_r _ _ _ _ _ Ha Hk) as (n & Hn & Hat).
    apply lookup_seq in Hn as [-> _]. exact Hat.
Qed.


(** X6.  The times of an item in every turn of a run: it is respawned only
    once its respawn time has come; an item that starts to be eaten keeps
    the time of the turn as start and is still [eating] at the end of that
    turn; and an item that is finished has been eaten for at least 250 ms and
    gets a respawn time from 1400 to 3600 ms ahead. *)
Theorem item_timing (cfg : Renderer.Config) (math : Renderer.Math) (draws : rng)
    (gy : Z) (k : nat) :
  Forall (Facts.item_times cfg k) (Renderer.run_log cfg math draws gy).
Proof.
  unfold Renderer.run_log.
  apply (log_invariant cfg math draws
           (Facts.scene_inv (Renderer.createSpawnZones cfg gy))); [|apply init_inv].
  intros i s p Hs. split; [apply turn_item_times, Hs | apply step_inv, Hs].
Qed.

(** ** The renderer: what is drawn *)

Section DrawingFacts.

Import Renderer Facts Drawing.

Context (cfg : Config) (math : Math) (draws : rng).




Lemma round_mono (x y : Q) : (x <= y)%Q → round x <= round y.
Proof. intros H. unfold round. apply Qfloor_resp_le. lra. Qed.



Lemma glyph_of_key (key : string) (c : ascii) :
  key ∈ leaf_keys → c ∈ chars ("+" +:+ key) → is_Some (glyph (upper_ascii c)).
Proof.
  intros Hkey Hc. unfold leaf_keys in Hkey.
  repeat (apply elem_of_cons in Hkey as [-> | Hkey]);
    [..|inversion Hkey];
    repeat (apply elem_of_cons in Hc as [-> | Hc]);
    try (eexists; reflexivity); inversion Hc.
Qed.

Lemma leaf_scale_unit (lf : Leaf.t) (now : Z) :
  (0 <= leaf_scale lf now)%Q ∧ (leaf_scale lf now <= 1)%Q.
Proof.
  unfold leaf_scale. destruct (Leaf.state lf); try (split; discriminate).
  set (t := clamp _ 0 1).
  destruct (clamp_bounds (inject_Z (now - Leaf.eatStartMs lf)
                          / inject_Z (Leaf.eatDurationMs lf)) 0 1 ltac:(discriminate))
    as [H0 H1].
  fold t in H0, H1. split; nra.
Qed.

End DrawingFacts.



(** X8.  Every character of every popup text of a run has a glyph in the
    font once it is put in upper case: [drawPixelText] skips none. *)
Theorem popup_text_has_glyphs (cfg : Renderer.Config) (math : Renderer.Math) (draws : rng)
    (gy : Z) :
  Forall (λ e, ∀ pp c, pp ∈ Renderer.popups (Renderer.after e) →
            c ∈ Facts.chars (Renderer.Popup.text pp) →
            is_Some (Drawing.glyph (Drawing.upper_ascii c)))
    (Renderer.run_log cfg math draws gy).
Proof.
  eapply Forall_impl; [apply run_log_inv|].
  intros e (_ & (_ & _ & _ & _ & Htexts) & _) pp c Hpp Hc.
  rewrite Forall_forall in Htexts.
  destruct (Htexts pp Hpp) as (key & Hkey & Htext).
  rewrite Htext in Hc. eapply glyph_of_key; eassumption.
Qed.

(** X9.  For a non-negative [leafPx], what [drawLeaves] draws of a scene of
    a run: one image per item that is not [dead], square, at least 1 px and
    at most [max(1, round(leafPx))] px wide. *)
Theorem leaves_drawn_size (cfg : Renderer.Config) (math : Renderer.Math) (draws : rng)
    (gy : Z) (leafPx : Q) :
  (0 <= leafPx)%Q →
  Forall (λ e,
      let drawn := Drawing.drawLeaves (Renderer.leaves (Renderer.after e)) leafPx
                     (Renderer.nowMs_of cfg (Renderer.index e)) in
      length drawn
      = length (List.filter (λ lf, negb (Renderer.LeafState_eqb (Renderer.Leaf.state lf)
                                           Renderer.dead))
                  (Renderer.leaves (Renderer.after e)))
      ∧ Forall (λ d, Drawing.height d = Drawing.width d
                     ∧ 1 <= Drawing.width d <= Z.max 1 (Drawing.round leafPx)) drawn)
    (Renderer.run_log cfg math draws gy).
Proof.
  intros Hpx. apply Forall_forall. intros e _.
  generalize (Renderer.nowMs_of cfg (Renderer.index e)) as now.
  generalize (Renderer.leaves (Renderer.after e)) as ls.
  intros ls now. cbv zeta. induction ls as [|lf ls [IH1 IH2]]; [split; [reflexivity|constructor]|].
  assert (Hw : 1 <= Z.max 1 (Drawing.round (leafPx * Drawing.leaf_scale lf now))
               <= Z.max 1 (Drawing.round leafPx)).
  { destruct (leaf_scale_unit lf now) as [H0 H1].
    pose proof (round_mono (leafPx * Drawing.leaf_scale lf now) leafPx ltac:(nra)). lia. }
  simpl. destruct (Renderer.Leaf.state lf); simpl.
  - split; [rewrite IH1; reflexivity|]. constructor; [split; [reflexivity|exact Hw]|exact IH2].
  - split; [rewrite IH1; reflexivity|]. constructor; [split; [reflexivity|exact Hw]|exact IH2].
  - split; assumption.
Qed.

Lemma leaves_drawn_size_witness :
  Forall (λ e,
      Forall (λ d, Drawing.height d = Drawing.width d
                   ∧ 1 <= Drawing.width d <= Z.max 1 (Drawing.round 40))
        (Drawing.drawLeaves (Renderer.leaves (Renderer.after e)) 40
           (Renderer.nowMs_of Renderer.single_frame (Renderer.index e))))
    (Renderer.run_log Renderer.single_frame Renderer.sample_math Renderer.zero_rng 116).
Proof.
  eapply Forall_impl.
  - apply (leaves_drawn_size Renderer.single_frame Renderer.sample_math Renderer.zero_rng
             116 40). discriminate.
  - intros e [_ H]. exact H.
Defined.

(** ** The state-board updater: counts, level and files *)

Section UpdaterMore.

Import Updater.


Lemma level_step (t : Z) :
  (t + 1) `div` 5 + 1 = t `div` 5 + 1 + (if (t + 1) `mod` 5 =? 0 then 1 else 0).
Proof.
  pose proof (Z.div_mod t 5 ltac:(lia)) as Ht.
  pose proof (Z.mod_pos_bound t 5 ltac:(lia)) as Hb.
  pose proof (Z.div_mod (t + 1) 5 ltac:(lia)) as Ht1.
  pose proof (Z.mod_pos_bound (t + 1) 5 ltac:(lia)) as Hb1.
  destruct (Z.eqb_spec ((t + 1) `mod` 5) 0) as [H0|Hn]; lia.
Qed.

End UpdaterMore.

(** X10.  For a record with integer counts and a count for its target, the
    update raises the level by one exactly when the new total is a multiple
    of 5, and leaves it where [floor(total / 5) + 1] had it otherwise. *)
Theorem level_rises_every_fifth (st : Updater.State) (r : rng) (m : gmap string Z) (c : Z) :
  Updater.eaten_leaves st = Updater.JInt <$> m →
  m !! Updater.key_of (Updater.current_target st) = Some c →
  Updater.quokka_level (Updater.update st r)
  = Updater.JInt (Updater.sum_counts m `div` 5 + 1
                  + (if (Updater.sum_counts m + 1) `mod` 5 =? 0 then 1 else 0)).
Proof.
  intros Hm Hc.
  set (k := Updater.key_of (Updater.current_target st)) in *.
  change (Updater.quokka_level (Updater.update st r))
    with (Updater.level_of (Updater.totalEaten
            (<[k := Updater.incr (Updater.eaten_leaves st !! k)]> (Updater.eaten_leaves st)))).
  rewrite Hm, lookup_fmap, Hc. simpl.
  rewrite <- fmap_insert, totalEaten_ints, sum_counts_incr by exact Hc.
  simpl. rewrite level_step. reflexivity.
Qed.

Lemma level_rises_every_fifth_witness :
  Updater.quokka_level (Updater.update Updater.example_state Updater.example_rng)
  = Updater.JInt (Updater.sum_counts Updater.example_counts `div` 5 + 1
                  + (if (Updater.sum_counts Updater.example_counts + 1) `mod` 5 =? 0
                     then 1 else 0)).
Proof.
  apply (level_rises_every_fifth Updater.example_state Updater.example_rng
           Updater.example_counts 3); reflexivity.
Defined.




(** ** The README syncer: header values, the listing, the list and the file *)

Section SyncerMore.

Import Syncer SyncFacts.

Lemma append_nil_r (s : string) : s +:+ EmptyString = s.
Proof. induction s as [|c s IH]; [reflexivity|]. rewrite append_cons, IH. reflexivity. Qed.

Lemma rev_string_app (acc a b : string) :
  rev_string acc (a +:+ b) = rev_string (rev_string acc a) b.
Proof.
  revert acc. induction a as [|c a IH]; intros acc; [reflexivity|].
  rewrite append_cons. simpl. apply IH.
Qed.

Lemma rev_string_rev (s acc1 acc2 : string) :
  rev_string acc2 (rev_string acc1 s) = rev_string (s +:+ acc2) acc1.
Proof.
  revert acc1. induction s as [|c s IH]; intros acc1; [reflexivity|].
  simpl. rewrite IH. reflexivity.
Qed.

Lemma rev_string_involutive (s : string) :
  rev_string EmptyString (rev_string EmptyString s) = s.
Proof. rewrite rev_string_rev. simpl. apply append_nil_r. Qed.

Lemma drop_last_quote_quoted (s : string) (q : ascii) :
  is_quote q = true → drop_last_quote (s +:+ String q EmptyString) = s.
Proof.
  intros Hq. unfold drop_last_quote.
  rewrite rev_string_app. simpl. rewrite Hq. apply rev_string_involutive.
Qed.

Lemma drop_last_quote_plain (s : string) (c : ascii) :
  is_quote c = false →
  drop_last_quote (s +:+ String c EmptyString) = s +:+ String c EmptyString.
Proof.
  intros Hq. unfold drop_last_quote.
  rewrite rev_string_app. simpl. rewrite Hq. reflexivity.
Qed.

Lemma contains_char_app (c : ascii) (a b : string) :
  contains_char c (a +:+ b) = contains_char c a || contains_char c b.
Proof.
  induction a as [|x a IH]; [reflexivity|].
  rewrite append_cons.
  change (contains_char c (String x ?s)) with (Ascii.eqb c x || contains_char c s).
  rewrite IH, orb_assoc. reflexivity.
Qed.

Lemma GetSubstitution_plain_text (matched before after replacement : string) :
  contains_char "$" replacement = false →
  GetSubstitution matched before after replacement = replacement.
Proof.
  induction replacement as [|c r IH]; [reflexivity|].
  change (contains_char "$" (String c r)) with (Ascii.eqb "$" c || contains_char "$" r).
  intros H. apply orb_false_iff in H as [Hc Hr].
  rewrite GetSubstitution_plain by (rewrite Ascii.eqb_sym; exact Hc).
  rewrite (IH Hr). reflexivity.
Qed.

Lemma GetSubstitution_app_plain (matched before after x y : string) :
  contains_char "$" x = false →
  GetSubstitution matched before after (x +:+ y)
  = x +:+ GetSubstitution matched before after y.
Proof.
  induction x as [|c x IH]; [intros _; rewrite !append_nil; reflexivity|].
  change (contains_char "$" (String c x)) with (Ascii.eqb "$" c || contains_char "$" x).
  intros H. apply orb_false_iff in H as [Hc Hx].
  rewrite !append_cons, GetSubstitution_plain by (rewrite Ascii.eqb_sym; exact Hc).
  rewrite (IH Hx). reflexivity.
Qed.

Context (api : option json → option json)
        (decode : json → option string)
        (date_ms : string → option Z).

Lemma filter_dirs_filter (items dirs : list json) :
  filter_dirs items = Ok dirs → dirs = List.filter is_dir items.
Proof.
  revert dirs. induction items as [|item items IH]; intros dirs; simpl.
  - intros [= <-]. reflexivity.
  - unfold is_dir. destruct (prop item "type") as [ty|]; [|discriminate].
    destruct (filter_dirs items) as [dirs'|]; [|discriminate].
    specialize (IH dirs' eq_refl).
    destruct ty as [[]|]; try (intros [= <-]; exact IH).
    destruct (String.eqb s "dir"); intros [= <-]; rewrite IH; reflexivity.
Qed.

End SyncerMore.

(** X13.  The value of a header line loses one quote character at its
    start and one at its end, each on its own: a value between two quotes,
    even of different kinds, is the text between them; a quote at one end
    only is dropped as well; a value without quotes at its ends is kept. *)
Theorem strip_quotes_ends (q1 q2 c : ascii) (s : string) :
  Syncer.is_quote q1 = true → Syncer.is_quote q2 = true → Syncer.is_quote c = false →
  Syncer.strip_quotes (String q1 (s +:+ String q2 EmptyString)) = s
  ∧ Syncer.strip_quotes (String c (s +:+ String q2 EmptyString)) = String c s
  ∧ Syncer.strip_quotes (String q1 (s +:+ String c EmptyString)) = s +:+ String c EmptyString
  ∧ Syncer.strip_quotes (String c (s +:+ String c EmptyString))
    = String c (s +:+ String c EmptyString).
Proof.
  intros H1 H2 Hc. unfold Syncer.strip_quotes. rewrite H1, Hc.
  split; [apply drop_last_quote_quoted, H2|]. split; [|split].
  - rewrite <- append_cons. apply drop_last_quote_quoted, H2.
  - apply drop_last_quote_plain, Hc.
  - rewrite <- append_cons. apply drop_last_quote_plain, Hc.
Qed.

Lemma strip_quotes_ends_witness :
  Syncer.strip_quotes (String (ascii_of_nat 34) ("Hello" +:+ String "'" EmptyString))
  = "Hello".
Proof.
  apply (strip_quotes_ends (ascii_of_nat 34) "'" "a" "Hello"); reflexivity.
Defined.



(** X15.  A title with a doubled dollar sign is written with a single one:
    the replacement text goes through the dollar patterns of
    [String.prototype.replace].  For a list of one record whose title is
    [A$$B], with no other dollar sign in the line, the document written has
    [A$B] as the title. *)
Theorem doubled_dollar_collapses (toLocaleDateString : string → string)
    (readme before between after : string) (post : Syncer.Post) (a b : string) :
  Syncer.find_section readme = Some (before, between, after) →
  Syncer.title post = a +:+ "$$" +:+ b →
  contains_char "$" a = false →
  contains_char "$" b = false →
  contains_char "$" (Syncer.url post) = false →
  contains_char "$" (toLocaleDateString (Syncer.date post)) = false →
  Syncer.replace_section readme (Syncer.newSection toLocaleDateString [post])
  = before
    +:+ (Syncer.startMarker +:+ nl
         +:+ "- [" +:+ a +:+ "$" +:+ b +:+ "](" +:+ Syncer.url post +:+ ") <sub>"
         +:+ toLocaleDateString (Syncer.date post) +:+ "</sub>" +:+ nl
         +:+ Syncer.endMarker)
    +:+ after.
Proof.
  intros Hfind Htitle Ha Hb Hurl Hdate.
  unfold Syncer.replace_section. rewrite Hfind. do 2 f_equal.
  set (m := Syncer.startMarker +:+ between +:+ Syncer.endMarker).
  set (d := toLocaleDateString (Syncer.date post)) in *.
  set (tail := b +:+ "](" +:+ Syncer.url post +:+ ") <sub>" +:+ d +:+ "</sub>" +:+ nl
               +:+ Syncer.endMarker).
  assert (Hsec : Syncer.newSection toLocaleDateString [post]
                 = (Syncer.startMarker +:+ nl +:+ "- [" +:+ a)
                   +:+ String "$" (String "$" tail)).
  { unfold Syncer.newSection, join, List.map, Syncer.post_line, Syncer.formatDate.
    fold d. rewrite Htitle. unfold tail. rewrite !append_assoc. reflexivity. }
  rewrite Hsec, GetSubstitution_app_plain, GetSubstitution_dollar.
  - change (Ascii.eqb "$" "$") with true. cbv iota.
    rewrite GetSubstitution_plain_text.
    + unfold tail. rewrite !append_assoc. reflexivity.
    + unfold tail. rewrite !contains_char_app, Hb, Hurl, Hdate. reflexivity.
  - rewrite !contains_char_app, Ha. reflexivity.
Qed.

Lemma doubled_dollar_collapses_witness :
  Syncer.replace_section Syncer.example_readme
    (Syncer.newSection Syncer.example_toLocaleDateString [SyncFacts.dollar_post])
  = ("# Hi" +:+ nl)
    +:+ (Syncer.startMarker +:+ nl
         +:+ "- [" +:+ "Cost: " +:+ "$" +:+ "5" +:+ "]("
         +:+ Syncer.url SyncFacts.dollar_post +:+ ") <sub>"
         +:+ Syncer.example_toLocaleDateString (Syncer.date SyncFacts.dollar_post)
         +:+ "</sub>" +:+ nl +:+ Syncer.endMarker)
    +:+ (nl +:+ "bye" +:+ nl).
Proof.
  apply (doubled_dollar_collapses Syncer.example_toLocaleDateString
           Syncer.example_readme ("# Hi" +:+ nl) (nl +:+ "- old" +:+ nl)
           (nl +:+ "bye" +:+ nl) SyncFacts.dollar_post "Cost: " "5");
    vm_compute; reflexivity.
Defined.



(** X17.  With at most five collected records the list is all of them, in
    some order: none is dropped. *)
Theorem few_posts_all_listed (api : option Syncer.json → option Syncer.json)
    (decode : Syncer.json → option string) (date_ms : string → option Z)
    (items folders : list Syncer.json) :
  api (Some (Syncer.JStr Syncer.root_url)) = Some (Syncer.JArr items) →
  Syncer.filter_dirs items = Syncer.Ok folders →
  (length (Syncer.collect api decode folders) <= 5)%nat →
  ∃ posts,
    Syncer.getLatestPosts api decode date_ms = Syncer.Ok posts
    ∧ posts ≡ₚ Syncer.collect api decode folders.
Proof.
  intros Hroot Hdirs Hlen. eexists. split.
  { unfold Syncer.getLatestPosts, Syncer.githubRequest. rewrite Hroot, Hdirs. reflexivity. }
  rewrite take_ge; [apply sort_by_perm|].
  rewrite (sort_by_perm (Syncer.by_date date_ms)). exact Hlen.
Qed.

Lemma few_posts_all_listed_witness :
  ∃ posts,
    Syncer.getLatestPosts Syncer.example_api Syncer.example_decode Syncer.example_date_ms
    = Syncer.Ok posts
    ∧ posts ≡ₚ Syncer.collect Syncer.example_api Syncer.example_decode
                 [Syncer.example_dir "first-post"; Syncer.example_dir "second-post"].
Proof.
  apply (few_posts_all_listed Syncer.example_api Syncer.example_decode
           Syncer.example_date_ms
           [Syncer.example_dir "first-post"; Syncer.example_dir "second-post"]).
  - reflexivity.
  - reflexivity.
  - vm_compute. lia.
Defined.

(** X18.  The filter of the root listing throws on a listing with a [null]
    entry and otherwise keeps, in order, exactly the entries whose [type] is
    the string ["dir"]. *)
Theorem filter_dirs_exact (items : list Syncer.json) :
  (Syncer.JNull ∈ items ∧ Syncer.filter_dirs items = Syncer.Throw)
  ∨ ((Syncer.JNull ∉ items)
     ∧ Syncer.filter_dirs items = Syncer.Ok (List.filter SyncFacts.is_dir items)).
Proof.
  destruct (Syncer.filter_dirs items) as [dirs|] eqn:Hf.
  - right. split.
    + intros Hnull. apply filter_dirs_throws in Hnull. congruence.
    + f_equal. apply filter_dirs_filter, Hf.
  - left. split; [apply filter_dirs_throws, Hf | reflexivity].
Qed.

(** X19.  A run that ends with exit code 1 has written nothing to the
    README. *)
Theorem failure_writes_nothing (api : option Syncer.json → option Syncer.json)
    (decode : Syncer.json → option string) (date_ms : string → option Z)
    (toLocaleDateString : string → string) (token file : option string) :
  fst (Syncer.main api decode date_ms toLocaleDateString token file) = Syncer.Exit1 →
  snd (Syncer.main api decode date_ms toLocaleDateString token file) = None
  ∧ Syncer.file_after file
      (snd (Syncer.main api decode date_ms toLocaleDateString token file)) = file.
Proof.
  unfold Syncer.main.
  destruct (Syncer.falsy token); [auto|].
  destruct (Syncer.getLatestPosts api decode date_ms) as [[|p posts]|]; auto.
  destruct (Syncer.updateReadme toLocaleDateString file (p :: posts)); [discriminate|auto].
Qed.

Lemma failure_writes_nothing_witness :
  snd (Syncer.main Syncer.example_api Syncer.example_decode Syncer.example_date_ms
         Syncer.example_toLocaleDateString (Some "token") None) = None.
Proof.
  apply (failure_writes_nothing Syncer.example_api Syncer.example_decode
           Syncer.example_date_ms Syncer.example_toLocaleDateString (Some "token") None).
  vm_compute. reflexivity.
Defined.

(** ** The state-board updater: the fragment loader *)

Section FragmentFacts.

Import Updater.

Lemma prefix_nil (s : string) : String.prefix EmptyString s = true.
Proof. destruct s; reflexivity. Qed.

Lemma prefix_cons (a c : ascii) (p s : string) :
  String.prefix (String a p) (String c s) = if Ascii.eqb a c then String.prefix p s else false.
Proof.
  simpl. destruct (ascii_dec a c) as [->|Hne].
  - rewrite Ascii.eqb_refl. reflexivity.
  - apply Ascii.eqb_neq in Hne. rewrite Hne. reflexivity.
Qed.

Lemma prefix_app_l (p a b : string) :
  String.prefix p a = true → String.prefix p (a +:+ b) = true.
Proof.
  revert a. induction p as [|x p IH]; intros a; [intros _; apply prefix_nil|].
  destruct a as [|c a]; [discriminate|].
  rewrite append_cons, !prefix_cons. destruct (Ascii.eqb x c); [apply IH|discriminate].
Qed.

(** A prefix of [a ++ b] is a prefix of [a], or [a] is its start and the
    rest of it, which is not empty, is a prefix of [b]. *)
Lemma prefix_app_inv (p a b : string) :
  String.prefix p (a +:+ b) = true →
  String.prefix p a = true
  ∨ ∃ y p2, p = a +:+ String y p2 ∧ String.prefix (String y p2) b = true.
Proof.
  revert a. induction p as [|x p IH]; intros a H; [left; apply prefix_nil|].
  destruct a as [|c a].
  - right. exists x, p. split; [reflexivity|exact H].
  - rewrite append_cons, prefix_cons in H. rewrite prefix_cons.
    destruct (Ascii.eqb_spec x c) as [->|_]; [|discriminate].
    destruct (IH a H) as [Hp|(y & p2 & -> & Hb)]; [left; exact Hp|].
    right. exists y, p2. split; [reflexivity|exact Hb].
Qed.

Lemma prefix_strip (p s : string) :
  String.prefix p s = true → ∃ rest, strip_prefix p s = Some rest.
Proof.
  revert s. induction p as [|x p IH]; intros s H; [eexists; reflexivity|].
  destruct s as [|c s]; [discriminate|].
  rewrite prefix_cons in H. simpl.
  destruct (Ascii.eqb x c); [apply IH, H|discriminate].
Qed.

(** In front of a closing tag, a text that is not empty starts with a tag
    exactly when it does so on its own. *)
Lemma prefix_open_app (c : ascii) (a : string) :
  String.prefix "<svg" (String c a +:+ "</svg>") = String.prefix "<svg" (String c a).
Proof.
  destruct (String.prefix "<svg" (String c a)) eqn:Hp.
  - apply prefix_app_l, Hp.
  - destruct (String.prefix "<svg" (String c a +:+ "</svg>")) eqn:Hq; [|reflexivity].
    apply prefix_app_inv in Hq as [Hq|(y & p2 & Heq & Hb)]; [congruence|].
    rewrite append_cons in Heq. injection Heq as <- Heq.
    destruct a as [|c2 a]; [injection Heq as <- <-; discriminate|].
    rewrite append_cons in Heq. injection Heq as <- Heq.
    destruct a as [|c3 a]; [injection Heq as <- <-; discriminate|].
    rewrite append_cons in Heq. injection Heq as <- Heq.
    destruct a as [|c4 a]; [injection Heq as <- <-; discriminate|].
    rewrite append_cons in Heq. injection Heq as <- Heq.
    destruct a; discriminate.
Qed.

Lemma prefix_close_app (c : ascii) (a : string) :
  String.prefix "</svg>" (String c a +:+ "</svg>") = String.prefix "</svg>" (String c a).
Proof.
  destruct (String.prefix "</svg>" (String c a)) eqn:Hp.
  - apply prefix_app_l, Hp.
  - destruct (String.prefix "</svg>" (String c a +:+ "</svg>")) eqn:Hq; [|reflexivity].
    apply prefix_app_inv in Hq as [Hq|(y & p2 & Heq & Hb)]; [congruence|].
    rewrite append_cons in Heq. injection Heq as <- Heq.
    destruct a as [|c2 a]; [injection Heq as <- <-; discriminate|].
    rewrite append_cons in Heq. injection Heq as <- Heq.
    destruct a as [|c3 a]; [injection Heq as <- <-; discriminate|].
    rewrite append_cons in Heq. injection Heq as <- Heq.
    destruct a as [|c4 a]; [injection Heq as <- <-; discriminate|].
    rewrite append_cons in Heq. injection Heq as <- Heq.
    destruct a as [|c5 a]; [injection Heq as <- <-; discriminate|].
    rewrite append_cons in Heq. injection Heq as <- Heq.
    destruct a as [|c6 a]; [injection Heq as <- <-; discriminate|].
    rewrite append_cons in Heq. injection Heq as <- Heq.
    destruct a; discriminate.
Qed.

Lemma strip_step (inside : bool) (c : ascii) (s : string) :
  strip_svg_tags inside (String c s)
  = if inside then strip_svg_tags (negb (Ascii.eqb c ">")) s
    else if (String.prefix "<svg" (String c s) && contains_char ">" (String c s))
            || String.prefix "</svg>" (String c s)
         then strip_svg_tags true s
         else String c (strip_svg_tags false s).
Proof. reflexivity. Qed.

Lemma contains_char_cons (c x : ascii) (s : string) :
  contains_char c (String x s) = Ascii.eqb c x || contains_char c s.
Proof. reflexivity. Qed.

Lemma contains_char_mid (c : ascii) (a b : string) :
  contains_char c (a +:+ String c b) = true.
Proof.
  rewrite contains_char_app, contains_char_cons, Ascii.eqb_refl, orb_true_r. reflexivity.
Qed.

Lemma includes_cons (c : ascii) (s needle : string) :
  includes (String c s) needle = false →
  strip_prefix needle (String c s) = None ∧ includes s needle = false.
Proof.
  unfold includes. simpl split_at.
  destruct (strip_prefix needle (String c s)); [discriminate|].
  destruct (split_at needle s) as [[b a]|]; [discriminate|]. auto.
Qed.

Lemma no_prefix (p s : string) : strip_prefix p s = None → String.prefix p s = false.
Proof.
  intros H. destruct (String.prefix p s) eqn:Hp; [|reflexivity].
  apply prefix_strip in Hp as [rest Hr]. congruence.
Qed.

Lemma close_has_gt (c : ascii) (s : string) :
  String.prefix "</svg>" (String c s) = true → contains_char ">" s = true.
Proof.
  intros H. apply prefix_strip in H as [rest Hr].
  apply strip_prefix_spec in Hr. injection Hr as _ ->.
  reflexivity.
Qed.

(** The scan of a text without opening tag is not changed by a closing tag
    behind the text. *)
Lemma strip_before_close (body : string) :
  includes body "<svg" = false →
  ∀ inside, (inside = true → contains_char ">" body = true) →
    strip_svg_tags inside (body +:+ "</svg>") = strip_svg_tags inside body.
Proof.
  induction body as [|c body IH]; intros Hno inside Hin.
  - destruct inside; [specialize (Hin eq_refl); discriminate|reflexivity].
  - apply includes_cons in Hno as [Hhere Hno].
    apply no_prefix in Hhere.
    rewrite append_cons, !strip_step.
    destruct inside.
    + apply IH; [exact Hno|]. intros Hc. specialize (Hin eq_refl).
      rewrite contains_char_cons in Hin. apply negb_true_iff in Hc.
      rewrite Ascii.eqb_sym, Hc in Hin. exact Hin.
    + rewrite <- append_cons, prefix_open_app, prefix_close_app, Hhere.
      cbn [andb orb].
      destruct (String.prefix "</svg>" (String c body)) eqn:Hclose.
      * apply IH; [exact Hno|]. intros _. apply close_has_gt in Hclose. exact Hclose.
      * f_equal. apply IH; [exact Hno|discriminate].
Qed.

Lemma strip_tag_rest (attrs rest : string) :
  contains_char ">" attrs = false →
  strip_svg_tags true (attrs +:+ String ">" rest) = strip_svg_tags false rest.
Proof.
  induction attrs as [|c attrs IH]; [reflexivity|].
  rewrite contains_char_cons. intros H. apply orb_false_iff in H as [Hc Hr].
  rewrite append_cons, strip_step, Ascii.eqb_sym, Hc. apply IH, Hr.
Qed.

Lemma strip_no_tags (body : string) :
  includes body "<svg" = false → includes body "</svg>" = false →
  strip_svg_tags false body = body.
Proof.
  induction body as [|c body IH]; [reflexivity|]. intros H1 H2.
  apply includes_cons in H1 as [P1 H1]. apply includes_cons in H2 as [P2 H2].
  rewrite strip_step, (no_prefix _ _ P1), (no_prefix _ _ P2). cbn [andb orb].
  rewrite IH by assumption. reflexivity.
Qed.

End FragmentFacts.

(** X20.  Of a fragment file that reads [<svg ATTRS>BODY</svg>], with no
    [>] in ATTRS and no [<svg] in BODY, the loader returns BODY without the
    closing tags it may hold: BODY itself when it holds none. *)
Theorem fragment_inner_content (fs : gmap string string) (name attrs body : string) :
  fs !! Updater.path_join Updater.assetsDir name
  = Some ("<svg" +:+ attrs +:+ ">" +:+ body +:+ "</svg>") →
  contains_char ">" attrs = false →
  includes body "<svg" = false →
  Updater.getSvgContent fs name = Updater.strip_svg_tags false body
  ∧ (includes body "</svg>" = false → Updater.getSvgContent fs name = body).
Proof.
  intros Hfile Hattrs Hbody.
  assert (Hget : Updater.getSvgContent fs name = Updater.strip_svg_tags false body).
  { unfold Updater.getSvgContent. rewrite Hfile.
    change ("<svg" +:+ attrs +:+ ">" +:+ body +:+ "</svg>")
      with (String "<" ("svg" +:+ attrs +:+ String ">" (body +:+ "</svg>"))).
    rewrite strip_step.
    assert (Hgt : contains_char ">" (String "<" ("svg" +:+ attrs
                                                  +:+ String ">" (body +:+ "</svg>"))) = true).
    { rewrite contains_char_cons, contains_char_app, contains_char_mid, !orb_true_r.
      reflexivity. }
    rewrite Hgt.
    change (String.prefix "<svg" (String "<" ("svg" +:+ attrs
                                               +:+ String ">" (body +:+ "</svg>"))))
      with (String.prefix EmptyString (attrs +:+ String ">" (body +:+ "</svg>"))).
    rewrite prefix_nil. simpl andb. simpl orb. cbv iota.
    change ("svg" +:+ attrs +:+ String ">" (body +:+ "</svg>"))
      with (String "s" (String "v" (String "g" (attrs +:+ String ">" (body +:+ "</svg>"))))).
    rewrite !strip_step. simpl negb. cbv iota.
    rewrite strip_tag_rest by exact Hattrs.
    apply strip_before_close; [exact Hbody|discriminate]. }
  split; [exact Hget|].
  intros Hclose. rewrite Hget. apply strip_no_tags; assumption.
Qed.

Lemma fragment_inner_content_witness :
  Updater.getSvgContent
    {[ "assets/quokka.svg" := "<svg" +:+ " viewBox='0 0 8 8'" +:+ ">"
                              +:+ "<rect width='8' height='8'/>" +:+ "</svg>" ]}
    "quokka.svg"
  = "<rect width='8' height='8'/>".
Proof.
  apply (fragment_inner_content _ "quokka.svg" " viewBox='0 0 8 8'"
           "<rect width='8' height='8'/>"); reflexivity.
Defined.

(** ** The README syncer: the header block *)

Section HeaderFacts.

Import Syncer.









End HeaderFacts.





